(** * pin/gc: mark and sweep collection of the block store

    A shallow embedding of [src/pin/gc/gc.go] (package [gc] of go-ipfs):
    [GC], [Descendants] and [ColoredSet], together with the contracts of
    the collaborators they call (block store, DAG service, pinner, key set).

    Go values are modelled as follows.
    - [key.Key] is a Go string; [key.KeySet] is an in-memory set, here a
      [gset Key] that is threaded through the calls that mutate it.
    - [*cid.Cid] is a record from which [Hash] extracts the key.
    - A Go [error] result is an explicit [outcome] / [result] value; the
      state a call leaves behind is returned next to it, also on failure.
    - The sweep goroutine is a step function over a configuration; the
      branch a [select] takes is supplied by a schedule. *)

From stdpp Require Import base strings gmap sets list.

Set Default Proof Using "Type".
#[local] Set Warnings "-clear-no-such-hyp".

(** ** Keys, content identifiers, key sets *)

(** [type Key string] of go-key. *)
Definition Key := string.

(** A content identifier: a codec tag and the multihash.  Only [Hash] is
    used by the collector. *)
Record Cid := NewCid { Codec : N; Hash : Key }.

(** [key.KeySet]: [NewKeySet], [Add], [Has]. *)
Abbreviation KeySet := (gset Key).

Definition NewKeySet : KeySet := ∅.
Definition Add (k : Key) (set : KeySet) : KeySet := {[ k ]} ∪ set.
Definition Has (k : Key) (set : KeySet) : bool := bool_decide (k ∈ set).

(** ** Errors and results *)

Inductive error :=
  | ErrNotFound (k : Key)     (* block absent from local storage *)
  | ErrDecode (k : Key)       (* block present, payload is not a node *)
  | ErrDelete (k : Key)       (* I/O failure while deleting *)
  | ErrEnumeration.           (* key enumeration could not be started *)

(** How a call that threads state ends.  [OutOfFuel] is an artefact of the
    embedding: the recursion of the walk is bounded by a counter. *)
Inductive outcome :=
  | Done
  | Failed (e : error)
  | OutOfFuel.

Inductive result (A : Type) :=
  | Ok (a : A)
  | Err (e : error)
  | Stuck.
Arguments Ok {A} a.
Arguments Err {A} e.
Arguments Stuck {A}.

(** ** Blocks and the DAG service *)

(** A decoded node: the identifiers it links to. *)
Record Node := MkNode { Links : list Cid }.

(** A stored block either decodes to a node or it does not. *)
Inductive Block :=
  | NodeBlock (nd : Node)
  | RawBlock.

Abbreviation Blocks := (gmap Key Block).

(** Modelled from the spec: [Get] of the DAG service that [GC] builds,
    [dag.NewDAGService(bserv.New(bs, offline.Exchange(bs)))]: "fetch node
    for root-reference -> Node, fails with NotFoundError/DecodeError".  The
    fetch reads local storage only, under the key of the identifier. *)
Definition Get (ds : Blocks) (c : Cid) : error + Node :=
  match ds !! Hash c with
  | None => inl (ErrNotFound (Hash c))
  | Some RawBlock => inl (ErrDecode (Hash c))
  | Some (NodeBlock nd) => inr nd
  end.

(** ** The closure walker *)

Section EnumerateChildren.
Context {St : Type}.
Variable ds : Blocks.
Variable visit : Cid → St → bool * St.

(** Modelled from the spec: [dag.EnumerateChildren] of package merkledag,
    "enumerate children of Node, with a visitor that returns whether to
    descend further".  For every link of the node the visitor decides
    whether to descend; on descent the child is fetched and walked in
    turn.  With [bestEffort] a failed fetch of a descendant abandons that
    branch and the walk goes on with the siblings; without it the failure
    aborts the walk.  The walk has no access to the visitor's state other
    than through the visitor. *)
Fixpoint EnumerateChildren (fuel : nat) (root : Node) (bestEffort : bool)
    (st : St) {struct fuel} : St * outcome :=
  match fuel with
  | 0 => (st, OutOfFuel)
  | S fuel' =>
      (fix each (lnks : list Cid) (st : St) {struct lnks} : St * outcome :=
         match lnks with
         | [] => (st, Done)
         | c :: rest =>
             let '(descend, st1) := visit c st in
             if descend then
               match Get ds c with
               | inl e => if bestEffort then each rest st1
                          else (st1, Failed e)
               | inr child =>
                   match EnumerateChildren fuel' child bestEffort st1 with
                   | (st2, Done) => each rest st2
                   | r => r
                   end
               end
             else each rest st1
         end) (Links root) st
  end.
End EnumerateChildren.

(** The visitor closure of [Descendants] (gc.go, lines 83-91). *)
Definition visit (c : Cid) (set : KeySet) : bool * KeySet :=
  let k := Hash c in
  let seen := Has k set in
  if seen then (false, set)
  else (true, Add k set).

(** [Descendants] (gc.go, lines 74-98).  The set is the caller's object:
    what has been added stays added when the call fails. *)
Fixpoint Descendants (fuel : nat) (ds : Blocks) (set : KeySet)
    (roots : list Cid) (bestEffort : bool) : KeySet * outcome :=
  match roots with
  | [] => (set, Done)
  | c :: roots' =>
      let set := Add (Hash c) set in
      match Get ds c with
      | inl e => (set, Failed e)
      | inr nd =>
          match EnumerateChildren ds visit fuel nd bestEffort set with
          | (set, Done) => Descendants fuel ds set roots' bestEffort
          | r => r
          end
      end
  end.

(** ** The live-set builder *)

(** The three key lists of [pin.Pinner] the collector reads. *)
Record Pinner := MkPinner {
  RecursiveKeys : list Cid;
  DirectKeys : list Cid;
  InternalPins : list Cid
}.

(** The loop of gc.go, lines 114-116. *)
Definition add_direct (set : KeySet) (ks : list Cid) : KeySet :=
  foldl (λ set k, Add (Hash k) set) set ks.

(** [ColoredSet] (gc.go, lines 100-124), with the state of the set after
    each stage made visible: the set is returned also when a stage fails. *)
Definition ColoredSet_stages (fuel : nat) (pn : Pinner) (ds : Blocks)
    (bestEffortRoots : list Cid) : KeySet * outcome :=
  let gcs := NewKeySet in
  match Descendants fuel ds gcs (RecursiveKeys pn) false with
  | (gcs, Done) =>
      match Descendants fuel ds gcs bestEffortRoots true with
      | (gcs, Done) =>
          let gcs := add_direct gcs (DirectKeys pn) in
          Descendants fuel ds gcs (InternalPins pn) false
      | r => r
      end
  | r => r
  end.

(** What the caller of [ColoredSet] receives: the set, or [nil] and the
    error. *)
Definition ColoredSet (fuel : nat) (pn : Pinner) (ds : Blocks)
    (bestEffortRoots : list Cid) : result KeySet :=
  match ColoredSet_stages fuel pn ds bestEffortRoots with
  | (gcs, Done) => Ok gcs
  | (_, Failed e) => Err e
  | (_, OutOfFuel) => Stuck
  end.

(** ** The block store *)

(** The state of a [bstore.GCBlockstore] as the collector sees it: the
    stored blocks, the exclusive lock, and the failures the store will
    answer with. *)
Record Blockstore := MkBlockstore {
  blocks : Blocks;
  locked : bool;            (* the exclusive lock is held *)
  unlocks : nat;            (* calls of [Unlock] so far *)
  delete_faults : KeySet;   (* keys whose deletion meets an I/O failure *)
  enum_fault : bool         (* key enumeration cannot be started *)
}.

Definition with_blocks (b : Blocks) (bs : Blockstore) : Blockstore :=
  MkBlockstore b (locked bs) (unlocks bs) (delete_faults bs) (enum_fault bs).

(** Modelled from the spec: [GCLock] of the block store, "acquire exclusive
    GC lock -> releasable handle"; it blocks while the lock is held, which
    is [None] here. *)
Definition GCLock (bs : Blockstore) : option Blockstore :=
  if locked bs then None
  else Some (MkBlockstore (blocks bs) true (unlocks bs) (delete_faults bs)
               (enum_fault bs)).

(** Modelled from the spec: [Unlock] of the handle [GCLock] returns. *)
Definition Unlock (bs : Blockstore) : Blockstore :=
  MkBlockstore (blocks bs) false (S (unlocks bs)) (delete_faults bs)
    (enum_fault bs).

(** Modelled from the spec: [AllKeysChan] of the block store, "enumerate all
    keys -> lazy sequence of Key, fails with EnumerationError".  The
    sequence is the stored keys, each once, in the store's own order. *)
Definition AllKeysChan (bs : Blockstore) : error + list Key :=
  if enum_fault bs then inl ErrEnumeration
  else inr (elements (dom (blocks bs))).

(** Modelled from the spec: [DeleteBlock] of the block store, "delete(Key)
    -> fails with DeleteError if absent or I/O failure". *)
Definition DeleteBlock (bs : Blockstore) (k : Key)
    : Blockstore * option error :=
  match blocks bs !! k with
  | None => (bs, Some (ErrNotFound k))
  | Some _ =>
      if bool_decide (k ∈ delete_faults bs) then (bs, Some (ErrDelete k))
      else (with_blocks (delete k (blocks bs)) bs, None)
  end.

(** ** The collector *)

(** Where the sweep goroutine stands: at the outer [select] (gc.go, line
    48), at the inner [select] handing over a deleted key (line 59), or
    returned. *)
Inductive pc :=
  | AtSelect
  | AtSend (k : Key)
  | Exited.

#[global] Instance pc_eq_dec : EqDecision pc.
Proof. solve_decision. Defined.

(** What the goroutine does to the outside, in order. *)
Inductive event :=
  | EvDelete (k : Key)    (* [bs.DeleteBlock(k)] removed the block *)
  | EvEmit (k : Key)      (* the consumer received [k] from [output] *)
  | EvLog (e : error)     (* [log.Debugf] of a deletion error *)
  | EvUnlock              (* deferred [unlocker.Unlock()] *)
  | EvClose.              (* deferred [close(output)] *)

(** The goroutine of gc.go, lines 44-69, and what it has captured. *)
Record Sweep := MkSweep {
  store : Blockstore;
  gcs : KeySet;
  keychan : list Key;     (* keys the enumeration has yet to deliver *)
  output : list Key;      (* keys the consumer has received, oldest first *)
  output_closed : bool;
  at_pc : pc;
  trace : list event      (* oldest first *)
}.

(** The branch a [select] takes.  [Proceed] is the channel operation
    (receive from [keychan], send on [output]); [Cancel] is [<-ctx.Done()]. *)
Inductive choice :=
  | Proceed
  | Cancel.

(** [return] in the goroutine: the deferred calls run, last registered
    first, so [Unlock] precedes [close(output)]. *)
Definition exit (g : Sweep) : Sweep :=
  MkSweep (Unlock (store g)) (gcs g) (keychan g) (output g) true Exited
    (trace g ++ [EvUnlock; EvClose]).

(** One turn of a [select]. *)
Definition step (ch : choice) (g : Sweep) : Sweep :=
  match at_pc g with
  | Exited => g
  | AtSelect =>
      match ch with
      | Cancel => exit g
      | Proceed =>
          match keychan g with
          | [] => exit g
          | k :: keychan' =>
              if Has k (gcs g) then
                MkSweep (store g) (gcs g) keychan' (output g)
                  (output_closed g) AtSelect (trace g)
              else
                match DeleteBlock (store g) k with
                | (bs, Some err) =>
                    exit (MkSweep bs (gcs g) keychan' (output g)
                            (output_closed g) AtSelect (trace g ++ [EvLog err]))
                | (bs, None) =>
                    MkSweep bs (gcs g) keychan' (output g) (output_closed g)
                      (AtSend k) (trace g ++ [EvDelete k])
                end
          end
      end
  | AtSend k =>
      match ch with
      | Cancel => exit g
      | Proceed =>
          MkSweep (store g) (gcs g) (keychan g) (output g ++ [k])
            (output_closed g) AtSelect (trace g ++ [EvEmit k])
      end
  end.

(** The goroutine under a schedule of [select] outcomes. *)
Fixpoint run (sched : list choice) (g : Sweep) : Sweep :=
  match sched with
  | [] => g
  | ch :: sched' => run sched' (step ch g)
  end.

(** [go func() { ... }()] with a fresh [output] channel. *)
Definition spawn (bs : Blockstore) (gcs : KeySet) (keychan : list Key)
    : Sweep :=
  MkSweep bs gcs keychan [] false AtSelect [].

(** The deletion errors the goroutine has logged. *)
Definition errors_of (t : list event) : list error :=
  omap (λ ev, match ev with EvLog err => Some err | _ => None end) t.

Definition logged (g : Sweep) : list error := errors_of (trace g).

(** What a call of [GC] comes to. *)
Inductive GCReturn :=
  | GCBlocked                              (* [GCLock] does not return *)
  | GCError (bs : Blockstore) (e : error)  (* [return nil, err] *)
  | GCOutput (g : Sweep)                   (* [return output, nil] *)
  | GCStuck.                               (* the embedding ran out of fuel *)

(** [GC] (gc.go, lines 27-72). *)
Definition GC (fuel : nat) (bs : Blockstore) (pn : Pinner)
    (bestEffortRoots : list Cid) : GCReturn :=
  match GCLock bs with
  | None => GCBlocked
  | Some bs =>
      let ds := blocks bs in
      match ColoredSet fuel pn ds bestEffortRoots with
      | Err err => GCError bs err
      | Stuck => GCStuck
      | Ok gcs =>
          match AllKeysChan bs with
          | inl err => GCError bs err
          | inr keychan => GCOutput (spawn bs gcs keychan)
          end
      end
  end.

(** ** Reachability in the stored graph *)

(** The links of the block stored under a key; a block that is missing or
    does not decode has none. *)
Definition links_of (ds : Blocks) (k : Key) : list Cid :=
  match ds !! k with
  | Some (NodeBlock nd) => Links nd
  | _ => []
  end.

(** The keys of a list of identifiers. *)
Definition keys (l : list Cid) : KeySet := list_to_set (Hash <$> l).

(** [reach ds stop l k]: [k] is the key of an identifier of [l], or is
    linked from a reached key that is not in [stop]. *)
Inductive reach (ds : Blocks) (stop : KeySet) (l : list Cid) : Key → Prop :=
  | reach_here c : c ∈ l → reach ds stop l (Hash c)
  | reach_step k c :
      reach ds stop l k → k ∉ stop → c ∈ links_of ds k →
      reach ds stop l (Hash c).

(** Plain reachability: nothing stops the descent. *)
Definition reachable (ds : Blocks) (roots : list Cid) (k : Key) : Prop :=
  reach ds ∅ roots k.

(** A set of keys is closed when it contains the links of its members. *)
Definition closed (ds : Blocks) (set : KeySet) : Prop :=
  ∀ k c, k ∈ set → c ∈ links_of ds k → Hash c ∈ set.

(** The walk over a list of links, as [EnumerateChildren] runs it. *)
Definition walk (ds : Blocks) (bestEffort : bool) (fuel : nat)
    (lnks : list Cid) (set : KeySet) : KeySet * outcome :=
  EnumerateChildren ds visit fuel (MkNode lnks) bestEffort set.

(** The goroutine releases the lock once, when it returns, and not
    before. *)
Definition lock_after (g0 g : Sweep) : Prop :=
  match at_pc g with
  | Exited =>
      locked (store g) = false ∧ unlocks (store g) = S (unlocks (store g0)) ∧
      output_closed g = true
  | _ =>
      locked (store g) = locked (store g0) ∧
      unlocks (store g) = unlocks (store g0) ∧
      output_closed g = output_closed g0
  end.

(** The keys of a list that the sweep deletes. *)
Definition dead (live : KeySet) (ks : list Key) : list Key :=
  filter (λ k, k ∉ live) ks.

(** The events of deleting and handing over each key of a list. *)
Definition deletions (ks : list Key) : list event :=
  ks ≫= λ k, [EvDelete k; EvEmit k].

(** The key in the inner [select], if any. *)
Definition sending (g : Sweep) : list Key :=
  match at_pc g with
  | AtSend k => [k]
  | _ => []
  end.

(** The block of [k] has been removed by the sweep. *)
Definition removed (g : Sweep) (k : Key) : Prop :=
  blocks (store g) !! k = None ∧ EvDelete k ∈ trace g.

(** [sweep_inv keys g]: of the enumeration [keys] a prefix has been
    received; the keys handed over, and the one being handed over, are
    taken from that prefix in order, and their blocks are gone; nothing has
    been logged while the goroutine runs. *)
Definition sweep_inv (keys : list Key) (g : Sweep) : Prop :=
  ∃ pre,
    keys = pre ++ keychan g ∧
    output g ++ sending g `sublist_of` pre ∧
    Forall (removed g) (output g ++ sending g) ∧
    (at_pc g ≠ Exited → logged g = []).

(** The schedule of a consumer that takes every key and never cancels: one
    turn for a live key, two for a dead one, and one to see the
    enumeration closed. *)
Definition patient (live : KeySet) (ks : list Key) : list choice :=
  (ks ≫= λ k, if Has k live then [Proceed] else [Proceed; Proceed])
  ++ [Proceed].

(** The keys whose blocks the goroutine has deleted, oldest first. *)
Definition deleted_of (t : list event) : list Key :=
  omap (λ ev, match ev with EvDelete k => Some k | _ => None end) t.

(** [store_inv bs0 g]: what a sweep started on the store [bs0] has done to
    it: blocks have only been removed, never those of live keys; the keys
    handed over or being handed over were stored and are not live; the
    failures the store answers with are as they were. *)
Definition store_inv (bs0 : Blockstore) (g : Sweep) : Prop :=
  blocks (store g) ⊆ blocks bs0 ∧
  (∀ k, k ∈ gcs g → blocks (store g) !! k = blocks bs0 !! k) ∧
  Forall (λ k, (k ∉ gcs g) ∧ k ∈ dom (blocks bs0)) (output g ++ sending g) ∧
  delete_faults (store g) = delete_faults bs0 ∧
  enum_fault (store g) = enum_fault bs0.

(** [report_inv g]: the deletions so far are the keys handed over, followed
    by at most one more: the key in the inner [select] while the goroutine
    runs. *)
Definition report_inv (g : Sweep) : Prop :=
  ∃ tail,
    deleted_of (trace g) = output g ++ tail ∧
    length tail ≤ 1 ∧
    (at_pc g ≠ Exited → tail = sending g).

(** [pending_inv g]: the keys still to be received are distinct and
    stored. *)
Definition pending_inv (g : Sweep) : Prop :=
  NoDup (keychan g) ∧ ∀ k, k ∈ keychan g → k ∈ dom (blocks (store g)).

(** [log_inv bs0 g]: a running goroutine has logged nothing; one that has
    returned has logged at most one error, the I/O failure of deleting a
    stored key that is not live. *)
Definition log_inv (bs0 : Blockstore) (g : Sweep) : Prop :=
  (at_pc g ≠ Exited → logged g = []) ∧
  length (logged g) ≤ 1 ∧
  Forall (λ err, ∃ k, err = ErrDelete k ∧ k ∈ delete_faults bs0 ∧
                      (k ∉ gcs g) ∧ k ∈ dom (blocks bs0)) (logged g).

(** ** Sample stores *)

Definition cid_of (k : Key) : Cid := NewCid 0 k.

Definition node_of (ks : list Key) : Block :=
  NodeBlock (MkNode (cid_of <$> ks)).

(** A store at rest: lock free, no failures pending. *)
Definition idle (b : Blocks) : Blockstore := MkBlockstore b false 0 ∅ false.

(** Four blocks: [A] and [B] link to each other, [C] is a leaf, [D] does
    not decode. *)
Definition store_ABCD : Blocks :=
  {[ "A" := node_of ["B"]; "B" := node_of ["A"]; "C" := node_of [];
     "D" := RawBlock ]}.

(** A chain: [R] links to [D], [D] links to [E]. *)
Definition store_RDE : Blocks :=
  {[ "R" := node_of ["D"]; "D" := node_of ["E"]; "E" := node_of [] ]}.

(** * Properties *)

Lemma elem_of_keys c l : c ∈ l → Hash c ∈ keys l.
Proof.
  intros Hc. unfold keys. apply elem_of_list_to_set, list_elem_of_fmap.
  by exists c.
Qed.

Lemma elem_of_keys_inv k l : k ∈ keys l → ∃ c, c ∈ l ∧ Hash c = k.
Proof.
  unfold keys. rewrite elem_of_list_to_set, list_elem_of_fmap.
  intros (c & -> & Hc). eauto.
Qed.

Lemma Get_links ds c nd : Get ds c = inr nd → links_of ds (Hash c) = Links nd.
Proof.
  unfold Get, links_of. destruct (ds !! Hash c) as [[nd'|]|]; congruence.
Qed.

Lemma Get_fail_links ds c e : Get ds c = inl e → links_of ds (Hash c) = [].
Proof.
  unfold Get, links_of. destruct (ds !! Hash c) as [[nd'|]|]; congruence.
Qed.

Lemma Get_stored ds c nd : Get ds c = inr nd → Hash c ∈ dom ds.
Proof.
  unfold Get. intros H. apply elem_of_dom.
  destruct (ds !! Hash c) as [[nd'|]|]; by eauto.
Qed.

Lemma reach_mono ds stop stop' l l' k :
  stop' ⊆ stop → l ⊆ l' → reach ds stop l k → reach ds stop' l' k.
Proof.
  intros Hs Hl. induction 1 as [c Hc|k c _ IH Hk Hc].
  - apply reach_here. auto.
  - eapply reach_step; [exact IH| |exact Hc]. set_solver.
Qed.

(** Reaching from keys that are themselves reached adds nothing. *)
Lemma reach_trans ds stop stop' l l' k :
  stop ⊆ stop' → (∀ c, c ∈ l' → reach ds stop l (Hash c)) →
  reach ds stop' l' k → reach ds stop l k.
Proof.
  intros Hs Hl. induction 1 as [c Hc|k c _ IH Hk Hc].
  - auto.
  - eapply reach_step; [exact IH| |exact Hc]. set_solver.
Qed.

(** ** The walk with the collector's visitor *)

Section Walk.
Variable ds : Blocks.
Variable bestEffort : bool.

Lemma walk_node fuel nd set :
  EnumerateChildren ds visit fuel nd bestEffort set
  = walk ds bestEffort fuel (Links nd) set.
Proof. by destruct nd. Qed.

Lemma walk_0 lnks set : walk ds bestEffort 0 lnks set = (set, OutOfFuel).
Proof. done. Qed.

Lemma walk_nil fuel set : walk ds bestEffort (S fuel) [] set = (set, Done).
Proof. done. Qed.

Lemma walk_cons fuel c rest set :
  walk ds bestEffort (S fuel) (c :: rest) set =
    if Has (Hash c) set then walk ds bestEffort (S fuel) rest set
    else match Get ds c with
         | inl e => if bestEffort then walk ds bestEffort (S fuel) rest (Add (Hash c) set)
                    else (Add (Hash c) set, Failed e)
         | inr child =>
             match walk ds bestEffort fuel (Links child) (Add (Hash c) set) with
             | (set2, Done) => walk ds bestEffort (S fuel) rest set2
             | r => r
             end
         end.
Proof.
  unfold walk at 1. cbn [EnumerateChildren Links]. unfold visit at 1.
  destruct (Has (Hash c) set); [reflexivity|]. cbn beta iota zeta.
  destruct (Get ds c) as [e|child]; [reflexivity|].
  rewrite walk_node. reflexivity.
Qed.

Lemma walk_seen fuel c rest set :
  Hash c ∈ set →
  walk ds bestEffort (S fuel) (c :: rest) set = walk ds bestEffort (S fuel) rest set.
Proof.
  intros Hc. rewrite walk_cons. unfold Has.
  by rewrite bool_decide_eq_true_2.
Qed.

Lemma walk_skip fuel c rest set e :
  Hash c ∉ set → Get ds c = inl e → bestEffort = true →
  walk ds bestEffort (S fuel) (c :: rest) set = walk ds bestEffort (S fuel) rest (Add (Hash c) set).
Proof.
  intros Hc Hget Hbe. rewrite walk_cons. unfold Has.
  rewrite bool_decide_eq_false_2, Hget by done.
  set (w := walk _ _ _ _ _). by rewrite Hbe.
Qed.

Lemma walk_abort fuel c rest set e :
  Hash c ∉ set → Get ds c = inl e → bestEffort = false →
  walk ds bestEffort (S fuel) (c :: rest) set = (Add (Hash c) set, Failed e).
Proof.
  intros Hc Hget Hbe. rewrite walk_cons. unfold Has.
  rewrite bool_decide_eq_false_2, Hget by done.
  set (w := walk _ _ _ _ _). by rewrite Hbe.
Qed.

Lemma walk_descend fuel c rest set child set2 :
  Hash c ∉ set → Get ds c = inr child →
  walk ds bestEffort fuel (Links child) (Add (Hash c) set) = (set2, Done) →
  walk ds bestEffort (S fuel) (c :: rest) set = walk ds bestEffort (S fuel) rest set2.
Proof.
  intros Hc Hget Hw. rewrite walk_cons. unfold Has.
  by rewrite bool_decide_eq_false_2, Hget, Hw.
Qed.

Lemma walk_fail fuel c rest set child set2 o :
  Hash c ∉ set → Get ds c = inr child → o ≠ Done →
  walk ds bestEffort fuel (Links child) (Add (Hash c) set) = (set2, o) →
  walk ds bestEffort (S fuel) (c :: rest) set = (set2, o).
Proof.
  intros Hc Hget Ho Hw. rewrite walk_cons. unfold Has.
  rewrite bool_decide_eq_false_2, Hget, Hw by done. by destruct o.
Qed.

(** Induction along the calls of the walk. *)
Lemma walk_ind (P : nat → list Cid → KeySet → KeySet * outcome → Prop) :
  (∀ lnks set, P 0 lnks set (set, OutOfFuel)) →
  (∀ fuel set, P (S fuel) [] set (set, Done)) →
  (∀ fuel c rest set r,
      Hash c ∈ set → walk ds bestEffort (S fuel) rest set = r →
      P (S fuel) rest set r → P (S fuel) (c :: rest) set r) →
  (∀ fuel c rest set e r,
      Hash c ∉ set → Get ds c = inl e → bestEffort = true →
      walk ds bestEffort (S fuel) rest (Add (Hash c) set) = r →
      P (S fuel) rest (Add (Hash c) set) r →
      P (S fuel) (c :: rest) set r) →
  (∀ fuel c rest set e,
      Hash c ∉ set → Get ds c = inl e → bestEffort = false →
      P (S fuel) (c :: rest) set (Add (Hash c) set, Failed e)) →
  (∀ fuel c rest set child set2 r,
      Hash c ∉ set → Get ds c = inr child →
      walk ds bestEffort fuel (Links child) (Add (Hash c) set) = (set2, Done) →
      P fuel (Links child) (Add (Hash c) set) (set2, Done) →
      walk ds bestEffort (S fuel) rest set2 = r →
      P (S fuel) rest set2 r →
      P (S fuel) (c :: rest) set r) →
  (∀ fuel c rest set child set2 o,
      Hash c ∉ set → Get ds c = inr child → o ≠ Done →
      walk ds bestEffort fuel (Links child) (Add (Hash c) set) = (set2, o) →
      P fuel (Links child) (Add (Hash c) set) (set2, o) →
      P (S fuel) (c :: rest) set (set2, o)) →
  ∀ fuel lnks set, P fuel lnks set (walk ds bestEffort fuel lnks set).
Proof.
  intros H0 Hnil Hseen Hskip Habort Hdesc Hfail.
  induction fuel as [|fuel IHf]; [intros; apply H0|].
  induction lnks as [|c rest IHl]; intros set; [apply Hnil|].
  rewrite walk_cons. unfold Has. case_bool_decide as Hin.
  { by apply Hseen. }
  destruct (Get ds c) as [e|child] eqn:Hget.
  { destruct bestEffort eqn:Hbe; [by eapply Hskip | by apply Habort]. }
  destruct (walk ds bestEffort fuel (Links child) (Add (Hash c) set)) as [set2 o] eqn:Hw.
  specialize (IHf (Links child) (Add (Hash c) set)). rewrite Hw in IHf.
  destruct o; [by eapply Hdesc | by eapply Hfail | by eapply Hfail].
Qed.
End Walk.

Section WalkFacts.
Variable ds : Blocks.
Variable bestEffort : bool.

Lemma Add_subseteq k (set : KeySet) : set ⊆ Add k set.
Proof. unfold Add. set_solver. Qed.

Lemma elem_of_Add k k' (set : KeySet) : k' ∈ Add k set ↔ k' = k ∨ k' ∈ set.
Proof. unfold Add. set_solver. Qed.

(** The walk only adds keys, however it ends. *)
Lemma walk_subseteq fuel lnks set :
  set ⊆ (walk ds bestEffort fuel lnks set).1.
Proof.
  revert fuel lnks set.
  apply (walk_ind ds bestEffort (λ _ _ set r, set ⊆ r.1)); simpl;
    intros; try done; pose proof (Add_subseteq (Hash c) set); set_solver.
Qed.

(** Each descent marks a stored key that was not marked before, so the
    depth of the recursion is bounded by the number of unmarked stored
    keys. *)
Lemma walk_fuel fuel lnks set :
  size (dom ds ∖ set) < fuel →
  (walk ds bestEffort fuel lnks set).2 ≠ OutOfFuel.
Proof.
  revert fuel lnks set.
  apply (walk_ind ds bestEffort
           (λ fuel _ set r, size (dom ds ∖ set) < fuel → r.2 ≠ OutOfFuel));
    simpl; try done.
  - intros; lia.
  - intros fuel c rest set e r Hc Hget _ Hw IH Hsz. apply IH.
    eapply Nat.le_lt_trans; [|exact Hsz]. apply subseteq_size.
    pose proof (Add_subseteq (Hash c) set). set_solver.
  - intros fuel c rest set child set2 r Hc Hget Hw _ Hr IH Hsz. apply IH.
    eapply Nat.le_lt_trans; [|exact Hsz]. apply subseteq_size.
    pose proof (walk_subseteq fuel (Links child) (Add (Hash c) set)) as Hs.
    rewrite Hw in Hs. simpl in Hs.
    pose proof (Add_subseteq (Hash c) set). set_solver.
  - intros fuel c rest set child set2 o Hc Hget Ho Hw IH Hsz. apply IH.
    assert (size (dom ds ∖ Add (Hash c) set) < size (dom ds ∖ set)); [|lia].
    apply subset_size. apply Get_stored in Hget.
    split; [unfold Add; set_solver|].
    intros Hsub. specialize (Hsub (Hash c)).
    rewrite !elem_of_difference, elem_of_Add in Hsub. naive_solver.
Qed.

(** A walk that did not run out of fuel gives the same result with more. *)
Lemma walk_fuel_mono fuel fuel' lnks set :
  (walk ds bestEffort fuel lnks set).2 ≠ OutOfFuel → fuel ≤ fuel' →
  walk ds bestEffort fuel' lnks set = walk ds bestEffort fuel lnks set.
Proof.
  revert fuel lnks set fuel'.
  apply (walk_ind ds bestEffort
           (λ fuel lnks set r, ∀ fuel', r.2 ≠ OutOfFuel → fuel ≤ fuel' →
              walk ds bestEffort fuel' lnks set = r)); simpl; try done.
  - intros fuel set [|fuel'] _ ?; [lia|done].
  - intros fuel c rest set r Hc Hw IH [|fuel'] Hr Hle; [lia|].
    rewrite walk_seen by done. by apply IH.
  - intros fuel c rest set e r Hc Hget Hbe Hw IH [|fuel'] Hr Hle; [lia|].
    rewrite (walk_skip _ _ _ _ _ _ e) by done. by apply IH.
  - intros fuel c rest set e Hc Hget Hbe [|fuel'] _ Hle; [lia|].
    by rewrite (walk_abort _ _ _ _ _ _ e).
  - intros fuel c rest set child set2 r Hc Hget Hw IH1 Hr IH2 [|fuel'] Hne Hle;
      [lia|].
    rewrite (walk_descend _ _ _ _ _ _ child set2); [by apply IH2|done..|].
    apply IH1; [done|lia].
  - intros fuel c rest set child set2 o Hc Hget Ho Hw IH [|fuel'] Hne Hle;
      [lia|].
    apply (walk_fail _ _ _ _ _ _ child); [done..|]. apply IH; [done|lia].
Qed.

(** Everything the walk adds is reached from the links without
    descending below a key that was marked at the start. *)
Lemma walk_sound fuel lnks set k :
  k ∈ (walk ds bestEffort fuel lnks set).1 →
  k ∈ set ∨ reach ds set lnks k.
Proof.
  revert fuel lnks set k.
  apply (walk_ind ds bestEffort
           (λ _ lnks set r, ∀ k, k ∈ r.1 → k ∈ set ∨ reach ds set lnks k));
    simpl; try by auto.
  - intros fuel c rest set r Hc Hw IH k Hk.
    destruct (IH k Hk) as [?|Hr]; [by left|right].
    eapply reach_mono; [done| |exact Hr]. set_solver.
  - intros fuel c rest set e r Hc Hget Hbe Hw IH k Hk.
    destruct (IH k Hk) as [[->|?]%elem_of_Add|Hr]; [right|by left|right].
    + apply reach_here. set_solver.
    + eapply reach_mono; [apply Add_subseteq| |exact Hr]. set_solver.
  - intros fuel c rest set e Hc Hget Hbe k [->|?]%elem_of_Add; [right|by left].
    apply reach_here. set_solver.
  - intros fuel c rest set child set2 r Hc Hget Hw IH1 Hr IH2 k Hk.
    assert (∀ k, k ∈ set2 → k ∈ set ∨ reach ds set (c :: rest) k) as H2.
    { intros k' Hk'.
      destruct (IH1 k' Hk') as [[->|?]%elem_of_Add|Hr']; [right|by left|right].
      - apply reach_here. set_solver.
      - eapply reach_trans; [apply (Add_subseteq (Hash c))| |exact Hr'].
        intros c' Hc'. eapply reach_step; [|exact Hc|].
        + apply reach_here. set_solver.
        + by rewrite (Get_links _ _ _ Hget). }
    destruct (IH2 k Hk) as [?|Hr']; [by apply H2|right].
    pose proof (walk_subseteq fuel (Links child) (Add (Hash c) set)) as Hs.
    rewrite Hw in Hs. simpl in Hs.
    eapply reach_mono; [|apply (list_subseteq_cons c), reflexivity|exact Hr'].
    pose proof (Add_subseteq (Hash c) set). set_solver.
  - intros fuel c rest set child set2 o Hc Hget Ho Hw IH k Hk.
    destruct (IH k Hk) as [[->|?]%elem_of_Add|Hr']; [right|by left|right].
    + apply reach_here. set_solver.
    + eapply reach_trans; [apply (Add_subseteq (Hash c))| |exact Hr'].
      intros c' Hc'. eapply reach_step; [|exact Hc|].
      * apply reach_here. set_solver.
      * by rewrite (Get_links _ _ _ Hget).
Qed.

(** A completed walk has marked every link, and the links of every key
    it has newly marked. *)
Lemma walk_complete fuel lnks set set' :
  walk ds bestEffort fuel lnks set = (set', Done) →
  (∀ c, c ∈ lnks → Hash c ∈ set') ∧
  (∀ k c, k ∈ set' → k ∉ set → c ∈ links_of ds k → Hash c ∈ set').
Proof.
  revert fuel lnks set set'.
  cut (∀ fuel lnks set,
         (λ _ lnks set r, r.2 = Done →
            (∀ c, c ∈ lnks → Hash c ∈ r.1) ∧
            (∀ k c, k ∈ r.1 → k ∉ set → c ∈ links_of ds k → Hash c ∈ r.1))
           fuel lnks set (walk ds bestEffort fuel lnks set)).
  { intros H fuel lnks set set' Hw. specialize (H fuel lnks set).
    rewrite Hw in H. by apply H. }
  apply (walk_ind ds bestEffort); simpl; try done.
  - intros fuel set _. split; [intros c Hc; by apply elem_of_nil in Hc|done].
  - intros fuel c rest set r Hc Hw IH Hr. destruct (IH Hr) as [IHa IHb].
    split; [|done]. intros c' [->|?]%elem_of_cons; [|by auto].
    pose proof (walk_subseteq (S fuel) rest set) as Hs. rewrite Hw in Hs.
    set_solver.
  - intros fuel c rest set e r Hc Hget Hbe Hw IH Hr.
    destruct (IH Hr) as [IHa IHb].
    pose proof (walk_subseteq (S fuel) rest (Add (Hash c) set)) as Hs.
    rewrite Hw in Hs. pose proof (elem_of_Add (Hash c) (Hash c) set).
    split.
    + intros c' [->|?]%elem_of_cons; [set_solver|by auto].
    + intros k c' Hk Hnk Hc'. destruct (decide (k = Hash c)) as [->|Hne].
      * rewrite (Get_fail_links _ _ _ Hget) in Hc'. by apply elem_of_nil in Hc'.
      * apply (IHb k c' Hk); [|done]. rewrite elem_of_Add. naive_solver.
  - intros fuel c rest set child set2 r Hc Hget Hw IH1 Hr IH2 Hdone.
    destruct (IH1 eq_refl) as [IH1a IH1b]. destruct (IH2 Hdone) as [IH2a IH2b].
    pose proof (walk_subseteq fuel (Links child) (Add (Hash c) set)) as Hs1.
    rewrite Hw in Hs1. simpl in Hs1.
    pose proof (walk_subseteq (S fuel) rest set2) as Hs2.
    rewrite Hr in Hs2. pose proof (elem_of_Add (Hash c) (Hash c) set).
    split.
    + intros c' [->|?]%elem_of_cons; [set_solver|by auto].
    + intros k c' Hk Hnk Hc'.
      destruct (decide (k ∈ set2)) as [Hk2|Hk2]; [|by eapply IH2b].
      apply Hs2. destruct (decide (k = Hash c)) as [->|Hne].
      * rewrite (Get_links _ _ _ Hget) in Hc'. by apply IH1a.
      * apply (IH1b k c' Hk2); [|done]. rewrite elem_of_Add. naive_solver.
Qed.
End WalkFacts.

(** ** Facts about [Descendants] *)

Section DescendantsFacts.
Variable ds : Blocks.
Variable bestEffort : bool.

Lemma Descendants_cons fuel set c roots :
  Descendants fuel ds set (c :: roots) bestEffort =
    match Get ds c with
    | inl e => (Add (Hash c) set, Failed e)
    | inr nd =>
        match walk ds bestEffort fuel (Links nd) (Add (Hash c) set) with
        | (set, Done) => Descendants fuel ds set roots bestEffort
        | r => r
        end
    end.
Proof.
  cbn [Descendants]. destruct (Get ds c) as [e|nd]; [done|].
  by rewrite walk_node.
Qed.

Lemma keys_cons c l : keys (c :: l) = {[ Hash c ]} ∪ keys l.
Proof. done. Qed.

(** [Descendants] only adds keys to the set, however it ends. *)
Lemma Descendants_subseteq fuel set roots :
  set ⊆ (Descendants fuel ds set roots bestEffort).1.
Proof.
  revert set. induction roots as [|c roots IH]; intros set; [done|].
  rewrite Descendants_cons. pose proof (Add_subseteq (Hash c) set) as Ha.
  destruct (Get ds c) as [e|nd]; [done|].
  pose proof (walk_subseteq ds bestEffort fuel (Links nd) (Add (Hash c) set))
    as Hw.
  destruct (walk ds bestEffort fuel (Links nd) (Add (Hash c) set))
    as [set2 o]. simpl in Hw.
  destruct o; simpl; [|set_solver..].
  specialize (IH set2). set_solver.
Qed.

(** More fuel than there are stored blocks is enough fuel. *)
Lemma Descendants_fuel fuel set roots :
  size ds < fuel →
  (Descendants fuel ds set roots bestEffort).2 ≠ OutOfFuel.
Proof.
  intros Hf. revert set.
  induction roots as [|c roots IH]; intros set; [done|].
  rewrite Descendants_cons. destruct (Get ds c) as [e|nd]; [done|].
  assert (size (dom ds ∖ Add (Hash c) set) < fuel) as Hsz.
  { eapply Nat.le_lt_trans; [|exact Hf]. rewrite <-size_dom.
    apply subseteq_size. set_solver. }
  pose proof (walk_fuel ds bestEffort fuel (Links nd) _ Hsz) as Hw.
  destruct (walk ds bestEffort fuel (Links nd) (Add (Hash c) set))
    as [set2 o]. by destruct o.
Qed.

Lemma Descendants_fuel_mono fuel fuel' set roots :
  (Descendants fuel ds set roots bestEffort).2 ≠ OutOfFuel → fuel ≤ fuel' →
  Descendants fuel' ds set roots bestEffort
  = Descendants fuel ds set roots bestEffort.
Proof.
  intros Hne Hle. revert set Hne.
  induction roots as [|c roots IH]; intros set Hne; [done|].
  rewrite !Descendants_cons in *. destruct (Get ds c) as [e|nd]; [done|].
  pose proof (walk_fuel_mono ds bestEffort fuel fuel' (Links nd)
                (Add (Hash c) set)) as Hw.
  destruct (walk ds bestEffort fuel (Links nd) (Add (Hash c) set))
    as [set2 o].
  destruct o; rewrite Hw by done; [by apply IH|done..].
Qed.

(** Every key of the resulting set was in the set before, or is reached
    from the roots without descending below a key that was in the set
    before and is not itself a root. *)
Lemma Descendants_sound fuel set roots k :
  k ∈ (Descendants fuel ds set roots bestEffort).1 →
  k ∈ set ∨ reach ds (set ∖ keys roots) roots k.
Proof.
  revert set. induction roots as [|c roots IH]; intros set; [by left|].
  rewrite Descendants_cons.
  assert (∀ k, k ∈ Add (Hash c) set →
            k ∈ set ∨ reach ds (set ∖ keys (c :: roots)) (c :: roots) k)
    as Hadd.
  { intros k' [->|?]%elem_of_Add; [right|by left].
    apply reach_here. set_solver. }
  destruct (Get ds c) as [e|nd] eqn:Hget; [by apply Hadd|].
  pose proof (walk_subseteq ds bestEffort fuel (Links nd) (Add (Hash c) set))
    as Hsub.
  pose proof (λ k, walk_sound ds bestEffort fuel (Links nd)
                     (Add (Hash c) set) k) as Hw.
  destruct (walk ds bestEffort fuel (Links nd) (Add (Hash c) set))
    as [set2 o]. simpl in Hw, Hsub.
  pose proof (Add_subseteq (Hash c) set) as Ha.
  assert (∀ k, k ∈ set2 →
            k ∈ set ∨ reach ds (set ∖ keys (c :: roots)) (c :: roots) k)
    as H2.
  { intros k' Hk'. destruct (Hw k' Hk') as [?|Hr]; [by apply Hadd|right].
    eapply reach_trans; [| |exact Hr]; [set_solver|].
    intros c' Hc'. eapply (reach_step _ _ _ (Hash c)).
    - apply reach_here. set_solver.
    - rewrite keys_cons. set_solver.
    - by rewrite (Get_links _ _ _ Hget). }
  destruct o; simpl; [|by apply H2..].
  intros Hk. destruct (IH set2 Hk) as [?|Hr]; [by apply H2|right].
  eapply reach_mono; [| |exact Hr].
  - rewrite keys_cons. set_solver.
  - apply list_subseteq_cons. reflexivity.
Qed.

(** After a successful call every root is in the set, and so are the
    links of every root and of every newly added key. *)
Lemma Descendants_complete fuel set roots set' :
  Descendants fuel ds set roots bestEffort = (set', Done) →
  (∀ c, c ∈ roots → Hash c ∈ set') ∧
  (∀ k c, k ∈ set' → k ∉ set ∖ keys roots → c ∈ links_of ds k →
          Hash c ∈ set').
Proof.
  revert set. induction roots as [|c roots IH]; intros set.
  { intros [= <-]. split; [by intros c ?%elem_of_nil|].
    intros k c Hk Hn. exfalso. apply Hn. unfold keys. set_solver. }
  rewrite Descendants_cons.
  destruct (Get ds c) as [e|nd] eqn:Hget; [done|].
  pose proof (walk_subseteq ds bestEffort fuel (Links nd) (Add (Hash c) set))
    as Hsub1.
  pose proof (walk_complete ds bestEffort fuel (Links nd) (Add (Hash c) set))
    as Hw.
  destruct (walk ds bestEffort fuel (Links nd) (Add (Hash c) set))
    as [set2 o]. simpl in Hsub1.
  destruct o; [|done..]. intros Hd.
  destruct (Hw set2 eq_refl) as [Hwa Hwb].
  destruct (IH set2 Hd) as [IHa IHb].
  pose proof (Descendants_subseteq fuel set2 roots) as Hsub2.
  rewrite Hd in Hsub2. simpl in Hsub2.
  pose proof (elem_of_Add (Hash c) (Hash c) set) as Hc.
  split.
  - intros c' [->|?]%elem_of_cons; [set_solver|by auto].
  - intros k c' Hk Hn Hc'.
    destruct (decide (k ∈ set2 ∖ keys roots)) as [Hin|Hin];
      [|by eapply IHb].
    apply Hsub2. destruct (decide (k = Hash c)) as [->|Hne].
    + apply Hwa. by rewrite <-(Get_links _ _ _ Hget).
    + apply (Hwb k c'); [set_solver| |done].
      rewrite elem_of_Add. rewrite keys_cons in Hn. set_solver.
Qed.

(** The set a successful call leaves behind. *)
Lemma Descendants_Done fuel set roots set' :
  Descendants fuel ds set roots bestEffort = (set', Done) →
  ∀ k, k ∈ set' ↔ k ∈ set ∨ reach ds (set ∖ keys roots) roots k.
Proof.
  intros Hd k. split.
  - intros Hk. apply (Descendants_sound fuel). by rewrite Hd.
  - destruct (Descendants_complete _ _ _ _ Hd) as [Ha Hb].
    pose proof (Descendants_subseteq fuel set roots) as Hsub.
    rewrite Hd in Hsub. simpl in Hsub.
    intros [?|Hr]; [set_solver|].
    induction Hr as [c Hc|k c _ IH Hk Hc]; [by apply Ha|].
    by apply (Hb k).
Qed.
End DescendantsFacts.

(** Below a closed set nothing new is found: stopping at its keys or not
    makes no difference for what is marked in the end. *)
Lemma reach_closed_absorb ds (set0 extra : KeySet) roots k :
  closed ds set0 →
  (k ∈ set0 ∪ extra ∨ reach ds ((set0 ∪ extra) ∖ keys roots) roots k) ↔
  (k ∈ set0 ∪ extra ∨ reach ds (extra ∖ keys roots) roots k).
Proof.
  intros Hcl. split.
  - intros [?|Hr]; [by left|right].
    eapply reach_mono; [|reflexivity|exact Hr]. set_solver.
  - intros [?|Hr]; [by left|].
    induction Hr as [c Hc|k c _ IH Hk Hc]; [right; by apply reach_here|].
    destruct (decide (k ∈ (set0 ∪ extra) ∖ keys roots)) as [Hin|Hin].
    + left. apply elem_of_union_l, (Hcl k); [set_solver|done].
    + right. apply (reach_step _ _ _ k); [|done..].
      destruct IH as [Hk0|?]; [|done].
      assert (k ∈ keys roots) as (c0 & Hc0 & <-)%elem_of_keys_inv
        by (destruct (decide (k ∈ keys roots)); [done|set_solver]).
      by apply reach_here.
Qed.

(** ** Facts about the block store and the sweep *)

Lemma DeleteBlock_err bs k bs' err :
  DeleteBlock bs k = (bs', Some err) → bs' = bs.
Proof.
  unfold DeleteBlock. destruct (blocks bs !! k); [|congruence].
  case_bool_decide; congruence.
Qed.

Lemma DeleteBlock_ok bs k bs' :
  DeleteBlock bs k = (bs', None) →
  bs' = with_blocks (delete k (blocks bs)) bs ∧ k ∈ dom (blocks bs) ∧
  k ∉ delete_faults bs.
Proof.
  unfold DeleteBlock. destruct (blocks bs !! k) eqn:Hk; [|congruence].
  case_bool_decide; [congruence|]. intros [= <-].
  split_and!; [done| |done]. apply elem_of_dom. eauto.
Qed.

Lemma DeleteBlock_stored bs k :
  k ∈ dom (blocks bs) → k ∉ delete_faults bs →
  DeleteBlock bs k = (with_blocks (delete k (blocks bs)) bs, None).
Proof.
  intros [b Hb]%elem_of_dom Hf. unfold DeleteBlock. rewrite Hb.
  by rewrite bool_decide_eq_false_2.
Qed.

Lemma errors_of_app t1 t2 : errors_of (t1 ++ t2) = errors_of t1 ++ errors_of t2.
Proof. apply omap_app. Qed.

Lemma run_app s1 s2 g : run (s1 ++ s2) g = run s2 (run s1 g).
Proof. revert g. induction s1 as [|ch s1 IH]; intros g; [done|apply IH]. Qed.

(** A goroutine that has returned does nothing more. *)
Lemma run_Exited sched g : at_pc g = Exited → run sched g = g.
Proof.
  intros Hg. induction sched as [|ch sched IH]; [done|].
  simpl. unfold step. by rewrite Hg.
Qed.

(** The sweep never touches the live set. *)
Lemma step_gcs ch g : gcs (step ch g) = gcs g.
Proof.
  unfold step. destruct (at_pc g), ch; try done.
  destruct (keychan g) as [|k ks]; [done|].
  destruct (Has k (gcs g)); [done|].
  by destruct (DeleteBlock (store g) k) as [bs [err|]].
Qed.

Lemma run_gcs sched g : gcs (run sched g) = gcs g.
Proof.
  revert g. induction sched as [|ch sched IH]; intros g; [done|].
  simpl. by rewrite IH, step_gcs.
Qed.

Lemma step_lock g0 g ch :
  at_pc g ≠ Exited → lock_after g0 g → lock_after g0 (step ch g).
Proof.
  unfold lock_after, step. intros Hne.
  destruct (at_pc g) eqn:Hpc; [| |done]; intros (Hl & Hu & Ho).
  - destruct ch; [|simpl; by rewrite Hu].
    destruct (keychan g) as [|k ks]; [simpl; by rewrite Hu|].
    destruct (Has k (gcs g)); [done|].
    destruct (DeleteBlock (store g) k) as [bs [err|]] eqn:Hd.
    + apply DeleteBlock_err in Hd as ->. simpl. by rewrite Hu.
    + apply DeleteBlock_ok in Hd as (-> & _). done.
  - destruct ch; [done|simpl; by rewrite Hu].
Qed.

Lemma run_lock sched g0 :
  at_pc g0 ≠ Exited → lock_after g0 (run sched g0).
Proof.
  intros Hne.
  cut (∀ g, lock_after g0 g → lock_after g0 (run sched g)).
  { intros H. apply H. unfold lock_after. by destruct (at_pc g0). }
  induction sched as [|ch sched IH]; intros g Hg; [done|].
  simpl. destruct (decide (at_pc g = Exited)) as [He|He].
  - rewrite run_Exited; unfold step; by rewrite He.
  - by apply IH, step_lock.
Qed.

Lemma lookup_foldl_delete (m : Blocks) (l : list Key) k :
  foldl (λ m k, delete k m) m l !! k
  = if decide (k ∈ l) then None else m !! k.
Proof.
  revert m. induction l as [|x l IH]; intros m; cbn [foldl].
  { case_decide as H; [by apply elem_of_nil in H|done]. }
  rewrite IH. repeat case_decide; try done.
  - set_solver.
  - assert (k = x) as -> by set_solver. apply lookup_delete_eq.
  - apply lookup_delete_ne. set_solver.
Qed.

(** A sweep that runs to its end without cancellation and without a
    deletion error deletes and hands over the dead keys of the
    enumeration, in order. *)
Lemma sweep_completed ks : ∀ sched g,
  keychan g = ks → at_pc g = AtSelect →
  Forall (eq Proceed) sched →
  at_pc (run sched g) = Exited →
  logged (run sched g) = [] →
  output (run sched g) = output g ++ dead (gcs g) ks ∧
  trace (run sched g)
    = trace g ++ deletions (dead (gcs g) ks) ++ [EvUnlock; EvClose] ∧
  blocks (store (run sched g))
    = foldl (λ m k, delete k m) (blocks (store g)) (dead (gcs g) ks).
Proof.
  induction ks as [|k ks IH]; intros sched g Hks Hpc Hsched Hex Hlog.
  - destruct sched as [|ch sched]; [simpl in Hex; congruence|].
    apply Forall_cons in Hsched as [<- Hsched]. simpl in *.
    unfold step in *. rewrite Hpc, Hks in *.
    rewrite run_Exited by done. simpl. by rewrite app_nil_r.
  - destruct sched as [|ch sched]; [simpl in Hex; congruence|].
    apply Forall_cons in Hsched as [<- Hsched]. simpl in *.
    unfold step in Hex, Hlog |- *. rewrite Hpc, Hks in *.
    unfold dead, Has in *. case_bool_decide as Hk.
    { rewrite filter_cons_False by auto.
      by apply (IH sched (MkSweep _ _ _ _ _ _ _)). }
    rewrite filter_cons_True by done.
    destruct (DeleteBlock (store g) k) as [bs [err|]] eqn:Hd.
    { exfalso. rewrite run_Exited in Hlog by done.
      unfold logged in Hlog. simpl in Hlog.
      rewrite !errors_of_app in Hlog. simpl in Hlog.
      by destruct (errors_of (trace g)). }
    apply DeleteBlock_ok in Hd as (-> & _).
    destruct sched as [|ch sched]; [simpl in Hex; congruence|].
    apply Forall_cons in Hsched as [<- Hsched]. simpl in *.
    unfold step in Hex, Hlog |- *. simpl in *.
    destruct (IH sched (MkSweep (with_blocks (delete k (blocks (store g)))
                                   (store g)) (gcs g) ks (output g ++ [k])
                          (output_closed g) AtSelect
                          ((trace g ++ [EvDelete k]) ++ [EvEmit k])))
      as (Ho & Ht & Hb); try done.
    simpl in *. rewrite Ho, Ht, Hb. unfold deletions. simpl.
    by rewrite <-!app_assoc.
Qed.

(** *** An invariant of the running sweep *)

Lemma removed_mono g g' k :
  (blocks (store g) !! k = None → blocks (store g') !! k = None) →
  (∃ t, trace g' = trace g ++ t) →
  removed g k → removed g' k.
Proof.
  intros Hb [t Ht] [H1 H2]. split; [auto|]. rewrite Ht. set_solver.
Qed.

Lemma sweep_inv_exit keys g pre :
  keys = pre ++ keychan g → output g `sublist_of` pre →
  Forall (removed g) (output g) →
  sweep_inv keys (exit g).
Proof.
  intros Hk Hs Hr. exists pre. simpl. unfold sending. simpl.
  rewrite app_nil_r. split_and!; [done..| |done].
  eapply Forall_impl; [exact Hr|]. intros k.
  apply removed_mono; [done|]. simpl. eauto.
Qed.

Lemma sweep_inv_step keys g ch : sweep_inv keys g → sweep_inv keys (step ch g).
Proof.
  intros Hinv. unfold step.
  destruct (at_pc g) eqn:Hpc; [| |done];
    destruct Hinv as (pre & Hk & Hs & Hr & Hq);
    unfold sending in Hs, Hr; rewrite Hpc in Hs, Hr, Hq.
  - rewrite app_nil_r in Hs, Hr.
    destruct ch; [|by apply (sweep_inv_exit _ _ pre)].
    destruct (keychan g) as [|k ks] eqn:Hks.
    { apply (sweep_inv_exit _ _ pre); [by rewrite Hks|done..]. }
    assert (keys = (pre ++ [k]) ++ ks) as Hk' by (by rewrite Hk, <-app_assoc).
    unfold Has. case_bool_decide as Hlive.
    { exists (pre ++ [k]). unfold sending. simpl. rewrite app_nil_r.
      split_and!; [done| |done..]. by apply sublist_inserts_r. }
    destruct (DeleteBlock (store g) k) as [bs [err|]] eqn:Hd.
    + apply DeleteBlock_err in Hd as ->.
      apply (sweep_inv_exit _ _ (pre ++ [k])); simpl; [done| |].
      * by apply sublist_inserts_r.
      * eapply Forall_impl; [exact Hr|]. intros k'.
        apply removed_mono; [done|]. simpl. eauto.
    + apply DeleteBlock_ok in Hd as (-> & _).
      exists (pre ++ [k]). unfold sending. simpl.
      split_and!; [done| | |].
      * by apply sublist_app.
      * apply Forall_app. split.
        -- eapply Forall_impl; [exact Hr|]. intros k'.
           apply removed_mono; simpl; [|by eauto].
           intros Hn. by apply lookup_delete_None; right.
        -- apply Forall_singleton. split; simpl.
           ++ apply lookup_delete_eq.
           ++ set_solver.
      * intros _. unfold logged in *. simpl. rewrite errors_of_app.
        by rewrite Hq.
  - destruct ch.
    + exists pre. unfold sending. simpl. rewrite app_nil_r.
      split_and!; [done..| |].
      * eapply Forall_impl; [exact Hr|]. intros k'.
        apply removed_mono; [done|]. simpl. eauto.
      * intros _. unfold logged in *. simpl. rewrite errors_of_app.
        by rewrite Hq.
    + apply (sweep_inv_exit _ _ pre); [done| |].
      * etrans; [|exact Hs]. by apply sublist_inserts_r.
      * by apply Forall_app in Hr as [Hr _].
Qed.

Lemma sweep_inv_spawn bs live keys : sweep_inv keys (spawn bs live keys).
Proof.
  exists []. unfold sending. simpl.
  split_and!; [done..|by apply Forall_nil|done].
Qed.

Lemma sweep_inv_run keys sched g :
  sweep_inv keys g → sweep_inv keys (run sched g).
Proof.
  revert g. induction sched as [|ch sched IH]; intros g Hg; [done|].
  simpl. by apply IH, sweep_inv_step.
Qed.

(** With an enumeration free of repetitions no key is handed over twice,
    and a key still to be received has not been handed over. *)
Lemma sweep_inv_NoDup keys g :
  NoDup keys → sweep_inv keys g →
  NoDup (output g ++ sending g) ∧
  (∀ k, k ∈ keychan g → k ∉ output g ++ sending g).
Proof.
  intros Hnd (pre & -> & Hs & _). apply NoDup_app in Hnd as (Hpre & Hdisj & _).
  split; [by eapply sublist_NoDup|].
  intros k Hk Hin. apply (Hdisj k); [|done].
  by eapply elem_of_sublist.
Qed.

(** *** A sweep can always run to its end *)

Lemma patient_Proceed live ks : Forall (eq Proceed) (patient live ks).
Proof.
  unfold patient. apply Forall_app. split; [|by repeat constructor].
  induction ks as [|k ks IH]; [constructor|]. simpl.
  apply Forall_app. split; [|done].
  destruct (Has k live); by repeat constructor.
Qed.

Lemma step_closed g :
  at_pc g = AtSelect → keychan g = [] → step Proceed g = exit g.
Proof. intros Hpc Hks. unfold step. by rewrite Hpc, Hks. Qed.

Lemma step_live g k ks :
  at_pc g = AtSelect → keychan g = k :: ks → k ∈ gcs g →
  step Proceed g
  = MkSweep (store g) (gcs g) ks (output g) (output_closed g) AtSelect
      (trace g).
Proof.
  intros Hpc Hks Hk. unfold step, Has. rewrite Hpc, Hks.
  by rewrite bool_decide_eq_true_2.
Qed.

Lemma step_dead g k ks :
  at_pc g = AtSelect → keychan g = k :: ks → k ∉ gcs g →
  step Proceed g
  = match DeleteBlock (store g) k with
    | (bs, Some err) =>
        exit (MkSweep bs (gcs g) ks (output g) (output_closed g) AtSelect
                (trace g ++ [EvLog err]))
    | (bs, None) =>
        MkSweep bs (gcs g) ks (output g) (output_closed g) (AtSend k)
          (trace g ++ [EvDelete k])
    end.
Proof.
  intros Hpc Hks Hk. unfold step, Has. rewrite Hpc, Hks.
  by rewrite bool_decide_eq_false_2.
Qed.

Lemma sweep_patient ks : ∀ g,
  keychan g = ks → at_pc g = AtSelect → NoDup ks →
  (∀ k, k ∈ ks → k ∉ gcs g →
        k ∈ dom (blocks (store g)) ∧ k ∉ delete_faults (store g)) →
  logged g = [] →
  at_pc (run (patient (gcs g) ks) g) = Exited ∧
  logged (run (patient (gcs g) ks) g) = [].
Proof.
  induction ks as [|k ks IH]; intros g Hks Hpc Hnd Hok Hlog.
  - unfold patient. cbn [mbind list_bind app run].
    rewrite step_closed by done. simpl.
    split; [done|]. unfold logged in *. simpl. rewrite errors_of_app.
    by rewrite Hlog.
  - apply NoDup_cons in Hnd as [Hk Hnd].
    unfold patient. rewrite bind_cons, <-app_assoc. fold (patient (gcs g) ks).
    unfold Has. case_bool_decide as Hlive; cbn [app run].
    + rewrite (step_live g k ks) by done.
      apply (IH (MkSweep _ _ _ _ _ _ _)); simpl; try done.
      intros k' Hk'. apply Hok. by apply list_elem_of_further.
    + destruct (Hok k) as [Hst Hnf]; [apply list_elem_of_here|done|].
      rewrite (step_dead g k ks), DeleteBlock_stored by done.
      unfold step at 1. cbn [at_pc].
      apply (IH (MkSweep _ _ _ _ _ _ _)); simpl; try done.
      * intros k' Hk' Hl. destruct (Hok k') as [Hst' Hnf'];
          [by apply list_elem_of_further|done|].
        split; [|done]. rewrite dom_delete. set_solver.
      * unfold logged in *. simpl. rewrite !errors_of_app. by rewrite Hlog.
Qed.

(** *** Enough fuel for the mark phase *)

(** With more fuel than there are stored blocks the mark phase comes to an
    end, and more fuel does not change what it returns. *)
Lemma ColoredSet_fuel fuel pn ds bestEffortRoots :
  size ds < fuel → ColoredSet fuel pn ds bestEffortRoots ≠ Stuck.
Proof.
  intros Hf. unfold ColoredSet, ColoredSet_stages.
  pose proof (Descendants_fuel ds false fuel NewKeySet (RecursiveKeys pn) Hf)
    as H1.
  destruct (Descendants fuel ds NewKeySet (RecursiveKeys pn) false)
    as [s1 [| |]]; [|done..].
  pose proof (Descendants_fuel ds true fuel s1 bestEffortRoots Hf) as H2.
  destruct (Descendants fuel ds s1 bestEffortRoots true)
    as [s2 [| |]]; [|done..].
  pose proof (Descendants_fuel ds false fuel
                (add_direct s2 (DirectKeys pn)) (InternalPins pn) Hf) as H4.
  by destruct (Descendants fuel ds (add_direct s2 (DirectKeys pn))
                 (InternalPins pn) false) as [s4 [| |]].
Qed.

Lemma ColoredSet_fuel_mono fuel fuel' pn ds bestEffortRoots :
  size ds < fuel → fuel ≤ fuel' →
  ColoredSet fuel' pn ds bestEffortRoots
  = ColoredSet fuel pn ds bestEffortRoots.
Proof.
  intros Hf Hle. unfold ColoredSet, ColoredSet_stages.
  assert (∀ be set roots,
            Descendants fuel' ds set roots be
            = Descendants fuel ds set roots be) as Heq.
  { intros. apply Descendants_fuel_mono; [|done].
    by apply Descendants_fuel. }
  rewrite Heq.
  destruct (Descendants fuel ds NewKeySet (RecursiveKeys pn) false)
    as [s1 [| |]]; [|done..].
  rewrite Heq.
  destruct (Descendants fuel ds s1 bestEffortRoots true)
    as [s2 [| |]]; [|done..].
  by rewrite Heq.
Qed.

Lemma GC_fuel fuel bs pn bestEffortRoots :
  size (blocks bs) < fuel → GC fuel bs pn bestEffortRoots ≠ GCStuck.
Proof.
  intros Hf. unfold GC, GCLock. destruct (locked bs); [done|]. cbn [blocks].
  pose proof (ColoredSet_fuel fuel pn (blocks bs) bestEffortRoots Hf) as Hc.
  destruct (ColoredSet fuel pn (blocks bs) bestEffortRoots); [|done..].
  by destruct (AllKeysChan _).
Qed.

(** * The claims *)

(** ** Lock release *)

(** On the paths through the goroutine the lock is released once: whatever
    the schedule, a sweep that has returned has called [Unlock] exactly
    once and closed [output]. *)
Lemma GC_output_releases_once fuel bs pn bestEffortRoots g0 sched :
  GC fuel bs pn bestEffortRoots = GCOutput g0 →
  at_pc (run sched g0) = Exited →
  locked (store (run sched g0)) = false ∧
  unlocks (store (run sched g0)) = S (unlocks bs) ∧
  output_closed (run sched g0) = true.
Proof.
  unfold GC, GCLock. destruct (locked bs); [done|].
  destruct (ColoredSet _ _ _ _) as [live|err|]; [|done..].
  destruct (AllKeysChan _) as [err|ks]; [done|]. intros [= <-] Hex.
  pose proof (run_lock sched
                (spawn (MkBlockstore (blocks bs) true (unlocks bs)
                          (delete_faults bs) (enum_fault bs)) live ks)) as Hl.
  unfold lock_after in Hl. rewrite Hex in Hl. by apply Hl.
Qed.

(** C1, as the code has it: the two early returns of [GC] (a failed mark
    phase, gc.go line 35, and a failed start of the key enumeration, line
    40) leave the lock held: [Unlock] has not been called, and a further
    [GCLock] does not return.  The claim that the lock is released once on
    every exit path fails on these two paths. *)
Theorem GC_early_return_keeps_lock :
  GC 5 (idle store_ABCD) (MkPinner [cid_of "X"] [] []) []
  = GCError (MkBlockstore store_ABCD true 0 ∅ false) (ErrNotFound "X") ∧
  GC 5 (MkBlockstore store_ABCD false 0 ∅ true) (MkPinner [cid_of "A"] [] []) []
  = GCError (MkBlockstore store_ABCD true 0 ∅ true) ErrEnumeration ∧
  GCLock (MkBlockstore store_ABCD true 0 ∅ false) = None ∧
  GC 5 (MkBlockstore store_ABCD true 0 ∅ false) (MkPinner [] [] []) []
  = GCBlocked.
Proof. by vm_compute. Qed.

(** ** Best-effort roots *)

(** A root whose node cannot be fetched ends [Descendants], with or
    without [bestEffort] (gc.go, lines 77-80). *)
Lemma Descendants_root_fetch_fails fuel ds set c roots bestEffort err :
  Get ds c = inl err →
  Descendants fuel ds set (c :: roots) bestEffort
  = (Add (Hash c) set, Failed err).
Proof. intros Hget. cbn [Descendants]. by rewrite Hget. Qed.

(** C2, as the code has it: with [bestEffort = true] and a first root [X]
    that is not stored, [Descendants] returns the fetch error; the root
    [C] after it is not visited, and a collection with [X] as its only
    best-effort root fails as a whole.  The claim that the root is skipped
    and the call succeeds fails here. *)
Theorem Descendants_bestEffort_root_aborts :
  Descendants 5 store_ABCD ∅ [cid_of "X"; cid_of "C"] true
  = ({[ "X" ]}, Failed (ErrNotFound "X")) ∧
  Descendants 5 store_ABCD ∅ [cid_of "C"] true = ({[ "C" ]}, Done) ∧
  GC 5 (idle store_ABCD) (MkPinner [cid_of "A"] [] []) [cid_of "X"]
  = GCError (MkBlockstore store_ABCD true 0 ∅ false) (ErrNotFound "X").
Proof. by vm_compute. Qed.

(** ** Sweep correctness *)

Lemma elem_of_dead live ks k : k ∈ dead live ks ↔ k ∈ ks ∧ k ∉ live.
Proof. unfold dead. rewrite list_elem_of_filter. tauto. Qed.

(** Unless a deletion meets an I/O failure, the patient schedule takes the
    sweep of any store against any live set to its end. *)
Lemma sweep_can_complete (bs : Blockstore) (live : KeySet) :
  delete_faults bs ⊆ live →
  let ks := elements (dom (blocks bs)) in
  let g := run (patient live ks) (spawn bs live ks) in
  Forall (eq Proceed) (patient live ks) ∧ at_pc g = Exited ∧ logged g = [].
Proof.
  intros Hf ks g. split; [apply patient_Proceed|].
  apply (sweep_patient ks (spawn bs live ks)); try done.
  - apply NoDup_elements.
  - simpl. intros k Hk Hl. split; [by apply elem_of_elements in Hk|].
    set_solver.
Qed.

(** C3: a sweep that completes without cancellation and without a logged
    deletion error hands over exactly the stored keys that are not live,
    each once; every hand-over directly follows the deletion of that key's
    block, and nothing else is deleted; afterwards the store holds exactly
    the stored keys that are live, with their blocks unchanged. *)
Theorem sweep_deletes_exactly_the_dead (bs : Blockstore) (live : KeySet)
    (sched : list choice) :
  let g := run sched (spawn bs live (elements (dom (blocks bs)))) in
  Forall (eq Proceed) sched → at_pc g = Exited → logged g = [] →
  (∀ k, k ∈ output g ↔ k ∈ dom (blocks bs) ∧ k ∉ live) ∧
  NoDup (output g) ∧
  trace g = deletions (output g) ++ [EvUnlock; EvClose] ∧
  dom (blocks (store g)) = dom (blocks bs) ∩ live ∧
  (∀ k, k ∈ live → blocks (store g) !! k = blocks bs !! k).
Proof.
  intros g Hsched Hex Hlog.
  destruct (sweep_completed (elements (dom (blocks bs))) sched
              (spawn bs live (elements (dom (blocks bs)))))
    as (Ho & Ht & Hb); try done.
  fold g in Ho, Ht, Hb. simpl in Ho, Ht, Hb. rewrite Ho, Ht, Hb.
  assert (∀ k, k ∈ dead live (elements (dom (blocks bs)))
               ↔ k ∈ dom (blocks bs) ∧ k ∉ live) as Hdead.
  { intros k. by rewrite elem_of_dead, elem_of_elements. }
  split_and!; [done| |done| |].
  - apply NoDup_filter, NoDup_elements.
  - apply set_eq. intros k.
    rewrite elem_of_dom, lookup_foldl_delete, elem_of_intersection.
    case_decide as Hk; rewrite Hdead in Hk.
    + split; [by intros [? [=]]|]. intros [_ ?]. by destruct Hk.
    + rewrite <-elem_of_dom. split; [|tauto]. intros Hd. split; [done|].
      destruct (decide (k ∈ live)); tauto.
  - intros k Hk. rewrite lookup_foldl_delete, decide_False; [done|].
    rewrite Hdead. tauto.
Qed.

Lemma sweep_deletes_exactly_the_dead_witness :
  let bs := idle store_ABCD in
  let live : KeySet := {[ "A"; "B" ]} in
  let sched := patient live (elements (dom store_ABCD)) in
  let g := run sched (spawn bs live (elements (dom store_ABCD))) in
  (Forall (eq Proceed) sched ∧ at_pc g = Exited ∧ logged g = []) ∧
  output g = ["C"; "D"] ∧
  elements (dom (blocks (store g))) = ["A"; "B"] ∧
  (∀ k, k ∈ output g ↔ k ∈ dom store_ABCD ∧ k ∉ live) ∧
  NoDup (output g) ∧
  trace g = deletions (output g) ++ [EvUnlock; EvClose] ∧
  dom (blocks (store g)) = dom store_ABCD ∩ live ∧
  (∀ k, k ∈ live → blocks (store g) !! k = store_ABCD !! k).
Proof.
  intros bs live sched g.
  assert (Forall (eq Proceed) sched ∧ at_pc g = Exited ∧ logged g = [])
    as Hyp.
  { split; [|split]; [|vm_compute; reflexivity..].
    vm_compute. repeat constructor. }
  split; [exact Hyp|]. split; [vm_compute; reflexivity|].
  split; [vm_compute; reflexivity|].
  destruct Hyp as (H1 & H2 & H3).
  exact (sweep_deletes_exactly_the_dead bs live sched H1 H2 H3).
Defined.

(** ** The live set *)

Lemma links_of_lookup ds k nd :
  ds !! k = Some (NodeBlock nd) → links_of ds k = Links nd.
Proof. unfold links_of. by intros ->. Qed.

Lemma add_direct_union set ks : add_direct set ks = set ∪ keys ks.
Proof.
  revert set. induction ks as [|c ks IH]; intros set.
  - unfold keys. simpl. set_solver.
  - unfold add_direct in *. cbn [foldl]. rewrite IH, keys_cons.
    unfold Add. set_solver.
Qed.

Lemma reachable_upto_empty ds roots k :
  reach ds (∅ ∖ keys roots) roots k ↔ reachable ds roots k.
Proof.
  unfold reachable. split; apply reach_mono; set_solver.
Qed.

Lemma closed_empty ds : closed ds ∅.
Proof. intros k c Hk. set_solver. Qed.

(** A successful [Descendants] keeps a closed set closed. *)
Lemma Descendants_closed fuel ds set roots bestEffort set' :
  closed ds set →
  Descendants fuel ds set roots bestEffort = (set', Done) →
  closed ds set'.
Proof.
  intros Hcl Hd k c Hk Hc.
  destruct (Descendants_complete _ _ _ _ _ _ Hd) as [_ Hb].
  pose proof (Descendants_subseteq ds bestEffort fuel set roots) as Hsub.
  rewrite Hd in Hsub. simpl in Hsub.
  destruct (decide (k ∈ set ∖ keys roots)) as [Hin|Hin]; [|by eapply Hb].
  apply Hsub, (Hcl k); [set_solver|done].
Qed.

(** On a closed set [Descendants] adds exactly what is reachable from its
    roots. *)
Lemma Descendants_closed_Done fuel ds set roots bestEffort set' :
  closed ds set →
  Descendants fuel ds set roots bestEffort = (set', Done) →
  ∀ k, k ∈ set' ↔ k ∈ set ∨ reachable ds roots k.
Proof.
  intros Hcl Hd k. rewrite (Descendants_Done _ _ _ _ _ _ Hd).
  pose proof (reach_closed_absorb ds set ∅ roots k Hcl) as Ha.
  rewrite union_empty_r_L in Ha. rewrite Ha.
  by rewrite reachable_upto_empty.
Qed.

(** C4, the claim as written, fails.  Pin [D] directly and let the
    internal root [R] link to [D], which links to [E]: [E] is reachable
    from the internal root, yet the live set is [{D, R}]: the walk from [R]
    finds [D] marked and does not descend. *)
Lemma ColoredSet_union_fails :
  ¬ (∀ fuel pn ds bestEffortRoots gcs,
       ColoredSet fuel pn ds bestEffortRoots = Ok gcs →
       ∀ k, k ∈ gcs ↔
         reachable ds (RecursiveKeys pn) k ∨
         reachable ds bestEffortRoots k ∨
         k ∈ keys (DirectKeys pn) ∨
         reachable ds (InternalPins pn) k).
Proof.
  intros H.
  specialize (H 5 (MkPinner [] [cid_of "D"] [cid_of "R"]) store_RDE []
                {[ "D"; "R" ]}).
  assert ("E" ∈ ({[ "D"; "R" ]} : KeySet)) as HE; [|set_solver].
  apply H; [by vm_compute|]. right; right; right. simpl.
  apply (reach_step _ _ _ "D" (cid_of "E")); [|set_solver|].
  - apply (reach_step _ _ _ "R" (cid_of "D")); [|set_solver|].
    + apply (reach_here _ _ _ (cid_of "R")). set_solver.
    + rewrite (links_of_lookup _ _ (MkNode [cid_of "D"])) by by vm_compute.
      set_solver.
  - rewrite (links_of_lookup _ _ (MkNode [cid_of "E"])) by by vm_compute.
    set_solver.
Qed.

(** C4, amended: when [ColoredSet] succeeds the live set is the union of
    the keys reachable from the recursive roots, the keys reachable from
    the best-effort roots, the direct keys, and the keys reachable from
    the internal roots without descending below a direct key that is not
    itself an internal root. *)
Theorem ColoredSet_live_set fuel pn ds bestEffortRoots gcs :
  ColoredSet fuel pn ds bestEffortRoots = Ok gcs →
  ∀ k, k ∈ gcs ↔
    reachable ds (RecursiveKeys pn) k ∨
    reachable ds bestEffortRoots k ∨
    k ∈ keys (DirectKeys pn) ∨
    reach ds (keys (DirectKeys pn) ∖ keys (InternalPins pn))
      (InternalPins pn) k.
Proof.
  unfold ColoredSet, ColoredSet_stages, NewKeySet.
  destruct (Descendants fuel ds ∅ (RecursiveKeys pn) false)
    as [s1 o1] eqn:H1.
  destruct o1; [|done..].
  destruct (Descendants fuel ds s1 bestEffortRoots true) as [s2 o2] eqn:H2.
  destruct o2; [|done..].
  destruct (Descendants fuel ds (add_direct s2 (DirectKeys pn))
              (InternalPins pn) false) as [s4 o4] eqn:H4.
  destruct o4; [|done..]. intros [= <-] k.
  pose proof (Descendants_closed _ _ _ _ _ _ (closed_empty ds) H1) as Hc1.
  pose proof (Descendants_closed _ _ _ _ _ _ Hc1 H2) as Hc2.
  pose proof (Descendants_closed_Done _ _ _ _ _ _ (closed_empty ds) H1) as E1.
  pose proof (Descendants_closed_Done _ _ _ _ _ _ Hc1 H2) as E2.
  rewrite add_direct_union in H4.
  rewrite (Descendants_Done _ _ _ _ _ _ H4).
  rewrite (reach_closed_absorb ds s2 _ _ k Hc2).
  rewrite elem_of_union, E2, E1. set_solver.
Qed.

Lemma ColoredSet_live_set_witness :
  let pn := MkPinner [cid_of "A"] [cid_of "D"] [cid_of "R"] in
  let ds := store_RDE ∪ store_ABCD in
  ColoredSet 8 pn ds [cid_of "C"] = Ok {[ "A"; "B"; "C"; "D"; "R" ]} ∧
  ∀ k, k ∈ ({[ "A"; "B"; "C"; "D"; "R" ]} : KeySet) ↔
    reachable ds (RecursiveKeys pn) k ∨
    reachable ds [cid_of "C"] k ∨
    k ∈ keys (DirectKeys pn) ∨
    reach ds (keys (DirectKeys pn) ∖ keys (InternalPins pn))
      (InternalPins pn) k.
Proof.
  intros pn ds.
  assert (ColoredSet 8 pn ds [cid_of "C"] = Ok {[ "A"; "B"; "C"; "D"; "R" ]})
    as Hyp by (vm_compute; reflexivity).
  split; [exact Hyp|].
  exact (ColoredSet_live_set 8 pn ds [cid_of "C"] _ Hyp).
Defined.

(** ** Failure of the mark phase *)

(** C5: when the mark phase fails, [GC] returns that error and no output
    channel, and the store holds the blocks it held before: nothing has
    been deleted. *)
Theorem GC_mark_failure_deletes_nothing fuel bs pn bestEffortRoots err :
  locked bs = false →
  ColoredSet fuel pn (blocks bs) bestEffortRoots = Err err →
  ∃ bs', GC fuel bs pn bestEffortRoots = GCError bs' err ∧
         blocks bs' = blocks bs.
Proof.
  intros Hl Hc. unfold GC, GCLock. rewrite Hl. cbn [blocks]. rewrite Hc.
  eexists. split; [reflexivity|done].
Qed.

Lemma GC_mark_failure_deletes_nothing_witness :
  let bs := idle store_ABCD in
  let pn := MkPinner [cid_of "A"; cid_of "D"] [] [] in
  (locked bs = false ∧ ColoredSet 5 pn (blocks bs) [] = Err (ErrDecode "D")) ∧
  ∃ bs', GC 5 bs pn [] = GCError bs' (ErrDecode "D") ∧
         blocks bs' = blocks bs.
Proof.
  intros bs pn.
  assert (locked bs = false ∧
          ColoredSet 5 pn (blocks bs) [] = Err (ErrDecode "D")) as Hyp
    by (split; vm_compute; reflexivity).
  split; [exact Hyp|].
  exact (GC_mark_failure_deletes_nothing 5 bs pn [] (ErrDecode "D")
           (proj1 Hyp) (proj2 Hyp)).
Defined.

(** ** Termination of the closure computation *)

(** A failed walk has marked the key whose fetch failed. *)
Lemma walk_Failed ds bestEffort fuel lnks set set' err :
  walk ds bestEffort fuel lnks set = (set', Failed err) →
  ∃ c, Hash c ∈ set' ∧ Get ds c = inl err.
Proof.
  revert fuel lnks set set' err.
  cut (∀ fuel lnks set,
         (λ _ _ _ r, ∀ err, r.2 = Failed err →
                            ∃ c, Hash c ∈ r.1 ∧ Get ds c = inl err)
           fuel lnks set (walk ds bestEffort fuel lnks set)).
  { intros H fuel lnks set set' err Hw. specialize (H fuel lnks set).
    rewrite Hw in H. by apply H. }
  apply (walk_ind ds bestEffort); simpl; try done.
  intros fuel c rest set e Hc Hget Hbe err [= <-].
  exists c. split; [|done]. apply elem_of_Add. by left.
Qed.

Lemma Descendants_Failed fuel ds set roots bestEffort set' err :
  Descendants fuel ds set roots bestEffort = (set', Failed err) →
  ∃ c, Hash c ∈ set' ∧ Get ds c = inl err.
Proof.
  revert set. induction roots as [|c roots IH]; intros set; [done|].
  rewrite Descendants_cons. destruct (Get ds c) as [e|nd] eqn:Hget.
  { intros [= <- <-]. exists c. split; [|done]. apply elem_of_Add. by left. }
  destruct (walk ds bestEffort fuel (Links nd) (Add (Hash c) set))
    as [set2 o] eqn:Hw.
  destruct o; [apply IH| |done].
  intros [= <- <-]. by eapply walk_Failed.
Qed.

(** C6: on any store, with or without cycles, [Descendants] started on
    the empty set comes to an end once the fuel exceeds the number of
    stored blocks, and more fuel does not change the result; what it has
    marked is reachable from the roots; when it succeeds the set is
    exactly the reachable keys; and it does succeed when every reachable
    key is stored as a node. *)
Theorem Descendants_terminates_with_closure fuel ds roots bestEffort :
  size ds < fuel →
  let r := Descendants fuel ds ∅ roots bestEffort in
  r.2 ≠ OutOfFuel ∧
  (∀ fuel', fuel ≤ fuel' → Descendants fuel' ds ∅ roots bestEffort = r) ∧
  (∀ k, k ∈ r.1 → reachable ds roots k) ∧
  (r.2 = Done → ∀ k, k ∈ r.1 ↔ reachable ds roots k) ∧
  ((∀ k, reachable ds roots k → ∃ nd, ds !! k = Some (NodeBlock nd)) →
   r.2 = Done).
Proof.
  intros Hf r.
  pose proof (Descendants_fuel ds bestEffort fuel ∅ roots Hf) as Hne.
  pose proof (Descendants_fuel_mono ds bestEffort fuel) as Hmono.
  pose proof (λ k, Descendants_sound ds bestEffort fuel ∅ roots k) as Hs.
  fold r in Hne, Hs.
  assert (∀ k, k ∈ r.1 → reachable ds roots k) as Hsound.
  { intros k [Hk|Hk]%Hs; [set_solver|]. by apply reachable_upto_empty. }
  split_and!; [done|by auto|done| |].
  - intros Hd k. destruct r as [set' o] eqn:Hr. simpl in Hd. subst o.
    rewrite (Descendants_closed_Done _ _ _ _ _ _ (closed_empty ds) Hr).
    set_solver.
  - intros Hall. destruct r as [set' o] eqn:Hr. simpl in *.
    destruct o as [|err|]; [done| |done].
    apply Descendants_Failed in Hr as (c & Hc & Hget).
    destruct (Hall _ (Hsound _ Hc)) as [nd Hnd].
    unfold Get in Hget. by rewrite Hnd in Hget.
Qed.

Lemma Descendants_terminates_with_closure_witness :
  let r := Descendants 5 store_ABCD ∅ [cid_of "A"] false in
  (size store_ABCD < 5 ∧ r = ({[ "A"; "B" ]}, Done)) ∧
  r.2 ≠ OutOfFuel ∧
  (∀ fuel', 5 ≤ fuel' →
     Descendants fuel' store_ABCD ∅ [cid_of "A"] false = r) ∧
  (∀ k, k ∈ r.1 → reachable store_ABCD [cid_of "A"] k) ∧
  (r.2 = Done → ∀ k, k ∈ r.1 ↔ reachable store_ABCD [cid_of "A"] k) ∧
  ((∀ k, reachable store_ABCD [cid_of "A"] k →
         ∃ nd, store_ABCD !! k = Some (NodeBlock nd)) →
   r.2 = Done).
Proof.
  intros r.
  assert (size store_ABCD < 5) as Hyp by (vm_compute; lia).
  split; [split; [exact Hyp|vm_compute; reflexivity]|].
  exact (Descendants_terminates_with_closure 5 store_ABCD [cid_of "A"] false
           Hyp).
Defined.

(** ** Deletion errors and cancellation *)

(** While the goroutine runs it holds the lock as [GC] left it. *)
Lemma run_lock_running sched g0 :
  at_pc g0 ≠ Exited → at_pc (run sched g0) ≠ Exited →
  unlocks (store (run sched g0)) = unlocks (store g0).
Proof.
  intros H0 Hr. pose proof (run_lock sched g0 H0) as Hl.
  unfold lock_after in Hl. destruct (at_pc (run sched g0)); [| |done];
    by apply Hl.
Qed.

(** C7: when the deletion of a key fails, the goroutine returns on that
    very turn: it takes no further key from the enumeration and deletes
    nothing more, whatever the schedule goes on to offer; the failing key
    is not handed over; the error is logged, the lock released (once) and
    the output closed; and every key handed over before has had its block
    removed and stays removed. *)
Theorem sweep_stops_on_delete_error bs live keys sched k rest bs' err :
  NoDup keys →
  let g := run sched (spawn bs live keys) in
  at_pc g = AtSelect → keychan g = k :: rest → (k ∉ live) →
  DeleteBlock (store g) k = (bs', Some err) →
  let g' := step Proceed g in
  at_pc g' = Exited ∧
  (∀ sched', run sched' g' = g') ∧
  keychan g' = rest ∧
  blocks (store g') = blocks (store g) ∧
  output g' = output g ∧
  (k ∉ output g') ∧
  trace g' = trace g ++ [EvLog err; EvUnlock; EvClose] ∧
  output_closed g' = true ∧
  locked (store g') = false ∧
  unlocks (store g') = S (unlocks bs) ∧
  Forall (removed g') (output g').
Proof.
  intros Hnd g Hpc Hks Hk Hd g'.
  pose proof (sweep_inv_run keys sched _ (sweep_inv_spawn bs live keys))
    as Hinv. fold g in Hinv.
  pose proof (sweep_inv_step keys g Proceed Hinv) as Hinv'. fold g' in Hinv'.
  destruct (sweep_inv_NoDup keys g Hnd Hinv) as [_ Hfresh].
  assert (unlocks (store g) = unlocks bs) as Hu.
  { apply (run_lock_running sched (spawn bs live keys)); [done|].
    fold g. by rewrite Hpc. }
  assert (g' = exit (MkSweep (store g) (gcs g) rest (output g)
                       (output_closed g) AtSelect (trace g ++ [EvLog err])))
    as Hg'.
  { unfold g'. rewrite (step_dead g k rest) by
      (done || by (unfold g; rewrite run_gcs)).
    rewrite Hd. by apply DeleteBlock_err in Hd as ->. }
  assert (Forall (removed g') (output g')) as Hrem.
  { destruct Hinv' as (pre & _ & _ & Hr & _).
    by apply Forall_app in Hr as [Hr _]. }
  rewrite Hg' in Hrem |- *. simpl. rewrite Hu, <-app_assoc.
  split_and!; try done.
  - intros sched'. by apply run_Exited.
  - intros Hin. apply (Hfresh k); [rewrite Hks; apply list_elem_of_here|].
    apply elem_of_app. by left.
Qed.

Lemma sweep_stops_on_delete_error_witness :
  let bs := MkBlockstore store_ABCD true 0 {[ "D" ]} false in
  let live : KeySet := {[ "A"; "B" ]} in
  let keys := ["C"; "A"; "B"; "D"] in
  let sched := [Proceed; Proceed; Proceed; Proceed] in
  let g := run sched (spawn bs live keys) in
  let g' := step Proceed g in
  (NoDup keys ∧ at_pc g = AtSelect ∧ keychan g = ["D"] ∧ ("D" ∉ live) ∧
   DeleteBlock (store g) "D" = (store g, Some (ErrDelete "D"))) ∧
  output g' = ["C"] ∧
  at_pc g' = Exited ∧
  (∀ sched', run sched' g' = g') ∧
  keychan g' = [] ∧
  blocks (store g') = blocks (store g) ∧
  output g' = output g ∧
  ("D" ∉ output g') ∧
  trace g' = trace g ++ [EvLog (ErrDelete "D"); EvUnlock; EvClose] ∧
  output_closed g' = true ∧
  locked (store g') = false ∧
  unlocks (store g') = S (unlocks bs) ∧
  Forall (removed g') (output g').
Proof.
  intros bs live keys sched g g'.
  assert (NoDup keys ∧ at_pc g = AtSelect ∧ keychan g = ["D"] ∧ ("D" ∉ live) ∧
          DeleteBlock (store g) "D" = (store g, Some (ErrDelete "D")))
    as Hyp.
  { split_and!; [|vm_compute; reflexivity..| |vm_compute; reflexivity].
    - by apply (bool_decide_unpack _).
    - by apply (bool_decide_unpack _). }
  split; [exact Hyp|]. split; [vm_compute; reflexivity|].
  destruct Hyp as (H1 & H2 & H3 & H4 & H5).
  exact (sweep_stops_on_delete_error bs live keys sched "D" [] (store g)
           (ErrDelete "D") H1 H2 H3 H4 H5).
Defined.

(** C8: once the goroutine takes the [ctx.Done()] branch, at either
    [select], it has returned: no block is deleted and no key handed over
    on that turn or on any later one; no key has been handed over twice;
    the lock is released (once) and the output closed, and nothing is
    logged: the cancellation is not an error. *)
Theorem sweep_stops_on_cancel bs live keys sched :
  NoDup keys →
  let g := run sched (spawn bs live keys) in
  at_pc g ≠ Exited →
  let g' := step Cancel g in
  at_pc g' = Exited ∧
  (∀ sched', run sched' g' = g') ∧
  blocks (store g') = blocks (store g) ∧
  output g' = output g ∧
  NoDup (output g') ∧
  trace g' = trace g ++ [EvUnlock; EvClose] ∧
  logged g' = [] ∧
  output_closed g' = true ∧
  locked (store g') = false ∧
  unlocks (store g') = S (unlocks bs).
Proof.
  intros Hnd g Hpc g'.
  pose proof (sweep_inv_run keys sched _ (sweep_inv_spawn bs live keys))
    as Hinv. fold g in Hinv.
  destruct (sweep_inv_NoDup keys g Hnd Hinv) as [Hnd' _].
  apply NoDup_app in Hnd' as [Hnd' _].
  destruct Hinv as (_ & _ & _ & _ & Hq). specialize (Hq Hpc).
  assert (unlocks (store g) = unlocks bs) as Hu
    by by apply (run_lock_running sched (spawn bs live keys)).
  assert (g' = exit g) as ->.
  { unfold g', step. by destruct (at_pc g). }
  unfold logged in *. simpl. rewrite errors_of_app, Hq, Hu.
  split_and!; try done. intros sched'. by apply run_Exited.
Qed.

Lemma sweep_stops_on_cancel_witness :
  let bs := MkBlockstore store_ABCD true 0 ∅ false in
  let live : KeySet := {[ "A"; "B" ]} in
  let keys := ["C"; "A"; "B"; "D"] in
  let g := run [Proceed] (spawn bs live keys) in
  let g' := step Cancel g in
  (NoDup keys ∧ at_pc g = AtSend "C") ∧
  output g' = [] ∧
  at_pc g' = Exited ∧
  (∀ sched', run sched' g' = g') ∧
  blocks (store g') = blocks (store g) ∧
  output g' = output g ∧
  NoDup (output g') ∧
  trace g' = trace g ++ [EvUnlock; EvClose] ∧
  logged g' = [] ∧
  output_closed g' = true ∧
  locked (store g') = false ∧
  unlocks (store g') = S (unlocks bs).
Proof.
  intros bs live keys g g'.
  assert (NoDup keys) as H1 by by apply (bool_decide_unpack _).
  assert (at_pc g = AtSend "C") as H2 by (vm_compute; reflexivity).
  split; [by split|]. split; [vm_compute; reflexivity|].
  assert (at_pc g ≠ Exited) as H3 by (rewrite H2; discriminate).
  exact (sweep_stops_on_cancel bs live keys [Proceed] H1 H3).
Defined.

(** ** The live set during a pass *)

Lemma visit_subseteq c (set : KeySet) : set ⊆ (visit c set).2.
Proof.
  unfold visit. destruct (Has (Hash c) set); [done|apply Add_subseteq].
Qed.

(** C9: every operation of the mark phase leaves the set at least as
    large as it found it: [Add], the visitor, the walk, [Descendants] and
    the loop over the direct keys, however they end; so the stages of
    [ColoredSet] form a growing chain whose last member is the set it
    returns.  The sweep never changes the set it was given. *)
Theorem live_set_grows_then_is_read_only :
  (∀ k (set : KeySet), set ⊆ Add k set) ∧
  (∀ c (set : KeySet), set ⊆ (visit c set).2) ∧
  (∀ ds bestEffort fuel nd (set : KeySet),
     set ⊆ (EnumerateChildren ds visit fuel nd bestEffort set).1) ∧
  (∀ fuel ds (set : KeySet) roots bestEffort,
     set ⊆ (Descendants fuel ds set roots bestEffort).1) ∧
  (∀ (set : KeySet) ks, set ⊆ add_direct set ks) ∧
  (∀ fuel pn ds bestEffortRoots,
     let s1 := (Descendants fuel ds NewKeySet (RecursiveKeys pn) false).1 in
     let s2 := (Descendants fuel ds s1 bestEffortRoots true).1 in
     let s3 := add_direct s2 (DirectKeys pn) in
     let s4 := (Descendants fuel ds s3 (InternalPins pn) false).1 in
     s1 ⊆ s2 ∧ s2 ⊆ s3 ∧ s3 ⊆ s4 ∧
     match ColoredSet fuel pn ds bestEffortRoots with
     | Ok gcs => gcs = s4
     | _ => True
     end) ∧
  (∀ ch g, gcs (step ch g) = gcs g) ∧
  (∀ sched g, gcs (run sched g) = gcs g).
Proof.
  split_and!.
  - apply Add_subseteq.
  - apply visit_subseteq.
  - intros. rewrite walk_node. apply walk_subseteq.
  - intros. apply Descendants_subseteq.
  - intros. rewrite add_direct_union. set_solver.
  - intros fuel pn ds bestEffortRoots s1 s2 s3 s4. split_and!.
    + apply Descendants_subseteq.
    + unfold s3. rewrite add_direct_union. set_solver.
    + apply Descendants_subseteq.
    + unfold ColoredSet, ColoredSet_stages, s4, s3, s2, s1.
      destruct (Descendants fuel ds NewKeySet (RecursiveKeys pn) false)
        as [t1 [| |]]; [|done..]. simpl.
      destruct (Descendants fuel ds t1 bestEffortRoots true)
        as [t2 [| |]]; [|done..]. simpl.
      by destruct (Descendants fuel ds (add_direct t2 (DirectKeys pn))
                     (InternalPins pn) false) as [t4 [| |]].
  - apply step_gcs.
  - apply run_gcs.
Qed.

(** ** The set after a failed [Descendants] *)

(** C10: when [Descendants] fails, the caller's set has lost nothing and
    holds what was added up to the failure: the roots before the failing
    one were processed in full, and the key of every root up to and
    including the failing one is in the set; when it is the fetch of the
    failing root itself that failed, the set is what the roots before it
    left, plus that root's key. *)
Theorem Descendants_failure_keeps_marks fuel ds set roots bestEffort set' err :
  Descendants fuel ds set roots bestEffort = (set', Failed err) →
  set ⊆ set' ∧
  ∃ before c after set1,
    roots = before ++ c :: after ∧
    Descendants fuel ds set before bestEffort = (set1, Done) ∧
    Descendants fuel ds set1 [c] bestEffort = (set', Failed err) ∧
    (∀ c', c' ∈ before ++ [c] → Hash c' ∈ set') ∧
    (∀ e, Get ds c = inl e → e = err ∧ set' = Add (Hash c) set1).
Proof.
  intros Hd. split.
  { pose proof (Descendants_subseteq ds bestEffort fuel set roots) as Hs.
    by rewrite Hd in Hs. }
  revert set Hd. induction roots as [|c roots IH]; intros set; [done|].
  rewrite Descendants_cons. destruct (Get ds c) as [e|nd] eqn:Hget.
  { intros [= <- <-]. exists [], c, roots, set.
    rewrite (Descendants_root_fetch_fails _ _ _ _ _ _ e) by done.
    split_and!; try done.
    - intros c' ->%list_elem_of_singleton. apply elem_of_Add. by left.
    - intros e' He'. split; [congruence|done]. }
  pose proof (walk_subseteq ds bestEffort fuel (Links nd) (Add (Hash c) set))
    as Hsub.
  destruct (walk ds bestEffort fuel (Links nd) (Add (Hash c) set))
    as [set2 o] eqn:Hw. simpl in Hsub.
  assert (Hash c ∈ set2) as Hc by (apply Hsub, elem_of_Add; by left).
  destruct o as [|e|]; [|intros [= <- <-]|done].
  - intros Hd. pose proof (Descendants_subseteq ds bestEffort fuel set2 roots)
      as Hsub2. rewrite Hd in Hsub2. simpl in Hsub2.
    destruct (IH set2 Hd) as (before & c0 & after & set1 & -> & H1 & H2 & H3 & H4).
    exists (c :: before), c0, after, set1.
    rewrite Descendants_cons, Hget, Hw.
    split_and!; try done.
    intros c' [->|?]%elem_of_cons; [by apply Hsub2|by apply H3].
  - exists [], c, roots, set. rewrite Descendants_cons, Hget, Hw.
    split_and!; try done.
    by intros c' ->%list_elem_of_singleton.
Qed.

Lemma Descendants_failure_keeps_marks_witness :
  let roots := [cid_of "C"; cid_of "X"; cid_of "A"] in
  let set' : KeySet := {[ "Z"; "C"; "X" ]} in
  Descendants 5 store_ABCD {[ "Z" ]} roots false
  = (set', Failed (ErrNotFound "X")) ∧
  {[ "Z" ]} ⊆ set' ∧
  ∃ before c after set1,
    roots = before ++ c :: after ∧
    Descendants 5 store_ABCD {[ "Z" ]} before false = (set1, Done) ∧
    Descendants 5 store_ABCD set1 [c] false
    = (set', Failed (ErrNotFound "X")) ∧
    (∀ c', c' ∈ before ++ [c] → Hash c' ∈ set') ∧
    (∀ e, Get store_ABCD c = inl e →
          e = ErrNotFound "X" ∧ set' = Add (Hash c) set1).
Proof.
  intros roots set'.
  assert (Descendants 5 store_ABCD {[ "Z" ]} roots false
          = (set', Failed (ErrNotFound "X"))) as Hyp
    by (vm_compute; reflexivity).
  split; [exact Hyp|].
  exact (Descendants_failure_keeps_marks 5 store_ABCD {[ "Z" ]} roots false
           set' (ErrNotFound "X") Hyp).
Defined.

(** * Further properties of the collector *)

(** ** The stages of the mark phase *)

(** A successful [ColoredSet] has run its three walks to the end. *)
Lemma ColoredSet_Ok_stages fuel pn ds bestEffortRoots gcs :
  ColoredSet fuel pn ds bestEffortRoots = Ok gcs →
  ∃ s1 s2,
    Descendants fuel ds ∅ (RecursiveKeys pn) false = (s1, Done) ∧
    Descendants fuel ds s1 bestEffortRoots true = (s2, Done) ∧
    Descendants fuel ds (s2 ∪ keys (DirectKeys pn)) (InternalPins pn) false
    = (gcs, Done).
Proof.
  unfold ColoredSet, ColoredSet_stages, NewKeySet.
  destruct (Descendants fuel ds ∅ (RecursiveKeys pn) false)
    as [s1 [| |]] eqn:H1; [|done..].
  destruct (Descendants fuel ds s1 bestEffortRoots true)
    as [s2 [| |]] eqn:H2; [|done..].
  rewrite add_direct_union.
  destruct (Descendants fuel ds (s2 ∪ keys (DirectKeys pn))
              (InternalPins pn) false) as [s4 [| |]] eqn:H4; [|done..].
  intros [= <-]. by exists s1, s2.
Qed.

Lemma Descendants_Done_subseteq fuel ds set roots bestEffort set' :
  Descendants fuel ds set roots bestEffort = (set', Done) →
  set ⊆ set' ∧ keys roots ⊆ set'.
Proof.
  intros Hd. split.
  - pose proof (Descendants_subseteq ds bestEffort fuel set roots) as Hs.
    by rewrite Hd in Hs.
  - destruct (Descendants_complete _ _ _ _ _ _ Hd) as [Hr _].
    intros k (c & Hc & <-)%elem_of_keys_inv. by apply Hr.
Qed.

(** X1: when [ColoredSet] succeeds, the key of every root of every
    category is in the live set: recursive roots, best-effort roots,
    direct keys and internal roots, whatever they link to. *)
Theorem ColoredSet_roots_marked fuel pn ds bestEffortRoots gcs :
  ColoredSet fuel pn ds bestEffortRoots = Ok gcs →
  keys (RecursiveKeys pn) ∪ keys bestEffortRoots ∪ keys (DirectKeys pn)
    ∪ keys (InternalPins pn) ⊆ gcs.
Proof.
  intros (s1 & s2 & H1 & H2 & H4)%ColoredSet_Ok_stages.
  apply Descendants_Done_subseteq in H1 as [_ H1].
  apply Descendants_Done_subseteq in H2 as [H2 H2'].
  apply Descendants_Done_subseteq in H4 as [H4 H4'].
  set_solver.
Qed.

Lemma ColoredSet_roots_marked_witness :
  let pn := MkPinner [cid_of "A"] [cid_of "X"] [cid_of "C"] in
  ColoredSet 5 pn store_ABCD [cid_of "C"] = Ok {[ "A"; "B"; "C"; "X" ]} ∧
  keys (RecursiveKeys pn) ∪ keys [cid_of "C"] ∪ keys (DirectKeys pn)
    ∪ keys (InternalPins pn) ⊆ ({[ "A"; "B"; "C"; "X" ]} : KeySet).
Proof.
  intros pn.
  assert (ColoredSet 5 pn store_ABCD [cid_of "C"]
          = Ok {[ "A"; "B"; "C"; "X" ]}) as Hyp by (vm_compute; reflexivity).
  split; [exact Hyp|].
  exact (ColoredSet_roots_marked 5 pn store_ABCD [cid_of "C"] _ Hyp).
Defined.

(** X2: direct keys are added as they are, without a fetch: with no
    internal roots, [ColoredSet] returns what it returns without the
    direct keys, plus those keys, and it fails in the same cases; a direct
    key whose block is missing does not fail the mark phase. *)
Theorem ColoredSet_direct_keys_unfetched fuel rec direct ds bestEffortRoots :
  ColoredSet fuel (MkPinner rec direct []) ds bestEffortRoots
  = match ColoredSet fuel (MkPinner rec [] []) ds bestEffortRoots with
    | Ok gcs => Ok (gcs ∪ keys direct)
    | r => r
    end.
Proof.
  unfold ColoredSet, ColoredSet_stages. cbn [RecursiveKeys DirectKeys
    InternalPins].
  destruct (Descendants fuel ds NewKeySet rec false) as [s1 [| |]];
    [|done..].
  destruct (Descendants fuel ds s1 bestEffortRoots true) as [s2 [| |]];
    [|done..].
  cbn [Descendants]. rewrite !add_direct_union. f_equal.
  unfold keys at 2. simpl. set_solver.
Qed.

(** ** What a sweep does to the store, under any schedule *)

Lemma deleted_of_app t1 t2 :
  deleted_of (t1 ++ t2) = deleted_of t1 ++ deleted_of t2.
Proof. apply omap_app. Qed.

Lemma store_inv_exit bs0 g :
  blocks (store g) ⊆ blocks bs0 →
  (∀ k, k ∈ gcs g → blocks (store g) !! k = blocks bs0 !! k) →
  Forall (λ k, (k ∉ gcs g) ∧ k ∈ dom (blocks bs0)) (output g) →
  delete_faults (store g) = delete_faults bs0 →
  enum_fault (store g) = enum_fault bs0 →
  store_inv bs0 (exit g).
Proof.
  intros. unfold store_inv, sending. simpl. by rewrite app_nil_r.
Qed.

Lemma store_inv_step bs0 g ch : store_inv bs0 g → store_inv bs0 (step ch g).
Proof.
  intros (Hsub & Hlive & Hout & Hdf & Hef). unfold step.
  unfold sending in Hout.
  destruct (at_pc g) eqn:Hpc; [| |by unfold store_inv, sending; rewrite Hpc].
  - rewrite app_nil_r in Hout.
    destruct ch; [|by apply store_inv_exit].
    destruct (keychan g) as [|k ks] eqn:Hks; [by apply store_inv_exit|].
    unfold Has. case_bool_decide as Hk.
    { unfold store_inv, sending. simpl. by rewrite app_nil_r. }
    destruct (DeleteBlock (store g) k) as [bs [err|]] eqn:Hd.
    + apply DeleteBlock_err in Hd as ->. by apply store_inv_exit.
    + apply DeleteBlock_ok in Hd as (-> & Hst & _).
      unfold store_inv, sending. simpl. split_and!; [| | |done..].
      * etrans; [apply delete_subseteq|done].
      * intros k' Hk'. rewrite lookup_delete_ne by congruence. by apply Hlive.
      * apply Forall_app. split; [done|]. apply Forall_singleton.
        split; [done|]. by eapply subseteq_dom.
  - destruct ch.
    + unfold store_inv, sending. simpl. by rewrite app_nil_r.
    + apply store_inv_exit; try done. by apply Forall_app in Hout as [? _].
Qed.

Lemma store_inv_run bs0 sched g :
  store_inv bs0 g → store_inv bs0 (run sched g).
Proof.
  revert g. induction sched as [|ch sched IH]; intros g Hg; [done|].
  simpl. by apply IH, store_inv_step.
Qed.

Lemma store_inv_spawn bs live ks : store_inv bs (spawn bs live ks).
Proof. unfold store_inv, sending. simpl. split_and!; try done. Qed.

Lemma report_inv_step g ch : report_inv g → report_inv (step ch g).
Proof.
  intros (tail & Ht & Hlen & Hrun). unfold step.
  destruct (at_pc g) eqn:Hpc;
    [| |by exists tail; rewrite Hpc];
    rewrite (Hrun ltac:(done)) in Ht; unfold sending in Ht;
    rewrite Hpc in Ht.
  - rewrite app_nil_r in Ht.
    assert (report_inv (exit g)) as Hexit.
    { exists []. simpl. rewrite deleted_of_app, Ht. simpl.
      split_and!; [done|lia|done]. }
    destruct ch; [|done].
    destruct (keychan g) as [|k ks] eqn:Hks; [done|].
    unfold Has. case_bool_decide as Hk.
    { exists []. unfold sending. simpl. rewrite app_nil_r.
      split_and!; [done|lia|done]. }
    destruct (DeleteBlock (store g) k) as [bs [err|]] eqn:Hd.
    + exists []. simpl. rewrite !deleted_of_app, Ht. simpl.
      rewrite !app_nil_r. split_and!; [done|lia|done].
    + exists [k]. unfold sending. simpl. rewrite deleted_of_app, Ht.
      split_and!; [done|simpl; lia|done].
  - destruct ch.
    + exists []. unfold sending. simpl. rewrite deleted_of_app, Ht. simpl.
      rewrite !app_nil_r. split_and!; [done|lia|done].
    + exists [k]. simpl. rewrite deleted_of_app, Ht. simpl.
      rewrite app_nil_r. split_and!; [done|lia|done].
Qed.

Lemma report_inv_run sched g : report_inv g → report_inv (run sched g).
Proof.
  revert g. induction sched as [|ch sched IH]; intros g Hg; [done|].
  simpl. by apply IH, report_inv_step.
Qed.

Lemma report_inv_spawn bs live ks : report_inv (spawn bs live ks).
Proof. exists []. unfold sending. simpl. split_and!; [done|lia|done]. Qed.

Lemma pending_inv_step g ch : pending_inv g → pending_inv (step ch g).
Proof.
  intros [Hnd Hst]. unfold step.
  destruct (at_pc g) eqn:Hpc; [| |done]; [|by destruct ch].
  destruct ch; [|done].
  destruct (keychan g) as [|k ks] eqn:Hks; [by rewrite <-Hks in *|].
  apply NoDup_cons in Hnd as [Hk Hnd].
  assert (∀ k', k' ∈ ks → k' ∈ dom (blocks (store g))) as Hst'.
  { intros k' Hk'. apply Hst. by apply list_elem_of_further. }
  unfold Has. case_bool_decide as Hlive; [done|].
  destruct (DeleteBlock (store g) k) as [bs [err|]] eqn:Hd.
  - by apply DeleteBlock_err in Hd as ->.
  - apply DeleteBlock_ok in Hd as (-> & _). split; [done|]. simpl.
    intros k' Hk'. rewrite dom_delete. specialize (Hst' k' Hk'). set_solver.
Qed.

Lemma pending_inv_run sched g : pending_inv g → pending_inv (run sched g).
Proof.
  revert g. induction sched as [|ch sched IH]; intros g Hg; [done|].
  simpl. by apply IH, pending_inv_step.
Qed.

(** X3: whatever the schedule (completion, cancellation at any point, a
    deletion error), the sweep leaves the block of every live key as it
    was, and the store afterwards holds only blocks it held before: blocks
    are removed, never added or replaced. *)
Theorem sweep_keeps_live_blocks bs live keys sched :
  let g := run sched (spawn bs live keys) in
  (∀ k, k ∈ live → blocks (store g) !! k = blocks bs !! k) ∧
  blocks (store g) ⊆ blocks bs.
Proof.
  intros g.
  destruct (store_inv_run bs sched _ (store_inv_spawn bs live keys))
    as (Hsub & Hlive & _).
  split; [|done]. intros k Hk. apply Hlive.
  by rewrite run_gcs.
Qed.

(** What [GC] has done when it returns an output channel. *)
Lemma GC_Output_inv fuel bs pn bestEffortRoots g0 :
  GC fuel bs pn bestEffortRoots = GCOutput g0 →
  locked bs = false ∧ enum_fault bs = false ∧
  ∃ live,
    ColoredSet fuel pn (blocks bs) bestEffortRoots = Ok live ∧
    g0 = spawn (MkBlockstore (blocks bs) true (unlocks bs) (delete_faults bs)
                  false) live (elements (dom (blocks bs))).
Proof.
  unfold GC, GCLock, AllKeysChan. destruct (locked bs); [done|].
  cbn [blocks enum_fault].
  destruct (ColoredSet _ _ _ _) as [live|err|]; [|done..].
  destruct (enum_fault bs); [done|]. intros [= <-]. eauto.
Qed.

(** X4: when [GC] returns an output channel, then under any schedule of
    the sweep the block of every key reachable from a recursive root or
    from a best-effort root, of every direct key and of every internal
    root is left as it was. *)
Theorem GC_keeps_pinned_blocks fuel bs pn bestEffortRoots g0 sched k :
  GC fuel bs pn bestEffortRoots = GCOutput g0 →
  reachable (blocks bs) (RecursiveKeys pn) k ∨
  reachable (blocks bs) bestEffortRoots k ∨
  k ∈ keys (DirectKeys pn) ∨ k ∈ keys (InternalPins pn) →
  blocks (store (run sched g0)) !! k = blocks bs !! k.
Proof.
  intros (_ & _ & live & Hc & ->)%GC_Output_inv Hk.
  destruct (store_inv_run _ sched _
              (store_inv_spawn
                 (MkBlockstore (blocks bs) true (unlocks bs) (delete_faults bs)
                    false) live (elements (dom (blocks bs)))))
    as (_ & Hlive & _).
  rewrite run_gcs in Hlive. apply Hlive. simpl.
  apply ColoredSet_Ok_stages in Hc as (s1 & s2 & H1 & H2 & H4).
  pose proof (Descendants_closed _ _ _ _ _ _ (closed_empty _) H1) as Hc1.
  pose proof (Descendants_closed_Done _ _ _ _ _ _ (closed_empty _) H1 k) as E1.
  pose proof (Descendants_closed_Done _ _ _ _ _ _ Hc1 H2 k) as E2.
  apply Descendants_Done_subseteq in H4 as [H4 H4'].
  destruct Hk as [Hk|[Hk|[Hk|Hk]]]; [| |set_solver..];
    apply H4, elem_of_union_l, E2; [left; apply E1|]; by right.
Qed.

Lemma GC_keeps_pinned_blocks_witness :
  let pn := MkPinner [cid_of "A"] [] [] in
  let bs := idle store_ABCD in
  let g0 := spawn (MkBlockstore store_ABCD true 0 ∅ false) {[ "A"; "B" ]}
              (elements (dom store_ABCD)) in
  let sched := [Proceed; Proceed; Proceed; Cancel] in
  (GC 5 bs pn [] = GCOutput g0 ∧
   (reachable (blocks bs) (RecursiveKeys pn) "B" ∨
    reachable (blocks bs) [] "B" ∨
    "B" ∈ keys (DirectKeys pn) ∨ "B" ∈ keys (InternalPins pn))) ∧
  blocks (store (run sched g0)) !! "B" = blocks bs !! "B".
Proof.
  intros pn bs g0 sched.
  assert (GC 5 bs pn [] = GCOutput g0) as H1 by (vm_compute; reflexivity).
  assert (reachable (blocks bs) (RecursiveKeys pn) "B" ∨
          reachable (blocks bs) [] "B" ∨
          "B" ∈ keys (DirectKeys pn) ∨ "B" ∈ keys (InternalPins pn)) as H2.
  { left. apply (reach_step _ _ _ "A" (cid_of "B")).
    - apply (reach_here _ _ _ (cid_of "A")). apply list_elem_of_here.
    - apply not_elem_of_empty.
    - rewrite (links_of_lookup _ _ (MkNode [cid_of "B"]))
        by (vm_compute; reflexivity).
      apply list_elem_of_here. }
  split; [by split|].
  exact (GC_keeps_pinned_blocks 5 bs pn [] g0 sched "B" H1 H2).
Defined.

(** X5: under any schedule, the keys handed over come in the order of the
    enumeration, none twice when the enumeration has no repetition; each
    was stored when the sweep began, is not live, and its block is gone. *)
Theorem sweep_output_sound bs live keys sched :
  NoDup keys →
  let g := run sched (spawn bs live keys) in
  output g `sublist_of` keys ∧
  NoDup (output g) ∧
  Forall (λ k, (k ∉ live) ∧ k ∈ dom (blocks bs) ∧
               blocks (store g) !! k = None) (output g).
Proof.
  intros Hnd g.
  pose proof (sweep_inv_run keys sched _ (sweep_inv_spawn bs live keys))
    as Hinv. fold g in Hinv.
  destruct (sweep_inv_NoDup keys g Hnd Hinv) as [Hnd' _].
  apply NoDup_app in Hnd' as [Hnd' _].
  destruct Hinv as (pre & Hk & Hs & Hr & _).
  destruct (store_inv_run bs sched _ (store_inv_spawn bs live keys))
    as (_ & _ & Hout & _). fold g in Hout.
  unfold g in Hout at 1. rewrite run_gcs in Hout. simpl in Hout.
  apply Forall_app in Hr as [Hr _]. apply Forall_app in Hout as [Hout _].
  split_and!; [|done|].
  - rewrite Hk. apply sublist_inserts_r. etrans; [|exact Hs].
    by apply sublist_inserts_r.
  - apply Forall_forall. intros k Hin.
    rewrite Forall_forall in Hr, Hout.
    destruct (Hout k Hin) as [? ?]. destruct (Hr k Hin) as [? _]. done.
Qed.

Lemma sweep_output_sound_witness :
  let bs := MkBlockstore store_ABCD true 0 ∅ false in
  let live : KeySet := {[ "A" ]} in
  let keys := ["C"; "A"; "B"; "D"] in
  let g := run [Proceed; Proceed; Proceed; Proceed; Proceed; Cancel]
             (spawn bs live keys) in
  (NoDup keys ∧ output g = ["C"; "B"]) ∧
  output g `sublist_of` keys ∧
  NoDup (output g) ∧
  Forall (λ k, (k ∉ live) ∧ k ∈ dom (blocks bs) ∧
               blocks (store g) !! k = None) (output g).
Proof.
  intros bs live keys g.
  assert (NoDup keys) as H1 by by apply (bool_decide_unpack _).
  split; [split; [exact H1|vm_compute; reflexivity]|].
  exact (sweep_output_sound bs live keys _ H1).
Defined.

Lemma blocks_deleted_step (b0 : Blocks) g ch :
  blocks (store g) = foldl (λ m k, delete k m) b0 (deleted_of (trace g)) →
  blocks (store (step ch g))
  = foldl (λ m k, delete k m) b0 (deleted_of (trace (step ch g))).
Proof.
  intros Hb. unfold step.
  assert (blocks (store (exit g))
          = foldl (λ m k, delete k m) b0 (deleted_of (trace (exit g))))
    as Hexit.
  { simpl. rewrite deleted_of_app. simpl. by rewrite app_nil_r. }
  destruct (at_pc g); [| |done].
  - destruct ch; [|done]. destruct (keychan g) as [|k ks]; [done|].
    destruct (Has k (gcs g)); [done|].
    destruct (DeleteBlock (store g) k) as [bs [err|]] eqn:Hd.
    + apply DeleteBlock_err in Hd as ->. simpl.
      rewrite !deleted_of_app. simpl. by rewrite !app_nil_r.
    + apply DeleteBlock_ok in Hd as (-> & _). simpl.
      rewrite deleted_of_app, foldl_app. simpl. by rewrite Hb.
  - destruct ch; [|done]. simpl. rewrite deleted_of_app. simpl.
    by rewrite app_nil_r.
Qed.

Lemma blocks_deleted_run (b0 : Blocks) sched g :
  blocks (store g) = foldl (λ m k, delete k m) b0 (deleted_of (trace g)) →
  blocks (store (run sched g))
  = foldl (λ m k, delete k m) b0 (deleted_of (trace (run sched g))).
Proof.
  revert g. induction sched as [|ch sched IH]; intros g Hg; [done|].
  simpl. by apply IH, blocks_deleted_step.
Qed.

(** X6: under any schedule, the store is what it was minus the blocks the
    goroutine has deleted, and every deletion has been reported on
    [output] except possibly the last one: while the goroutine runs, the
    key in the inner [select]; after it has returned, at most one key,
    deleted but never handed over. *)
Theorem sweep_reports_all_but_last bs live keys sched :
  let g := run sched (spawn bs live keys) in
  blocks (store g)
  = foldl (λ m k, delete k m) (blocks bs) (deleted_of (trace g)) ∧
  ∃ tail,
    deleted_of (trace g) = output g ++ tail ∧
    length tail ≤ 1 ∧
    (at_pc g ≠ Exited → tail = sending g).
Proof.
  intros g. split.
  - by apply blocks_deleted_run.
  - apply (report_inv_run sched), report_inv_spawn.
Qed.

(** X7: when [GC] returns an output channel the lock is held for as long
    as the goroutine runs, with [output] open; once the goroutine has
    returned, under whatever schedule, the lock is free, [Unlock] has been
    called exactly once, and [output] is closed. *)
Theorem GC_lock_held_until_return fuel bs pn bestEffortRoots g0 sched :
  GC fuel bs pn bestEffortRoots = GCOutput g0 →
  let g := run sched g0 in
  (at_pc g ≠ Exited →
   locked (store g) = true ∧ unlocks (store g) = unlocks bs ∧
   output_closed g = false) ∧
  (at_pc g = Exited →
   locked (store g) = false ∧ unlocks (store g) = S (unlocks bs) ∧
   output_closed g = true).
Proof.
  intros (_ & _ & live & _ & ->)%GC_Output_inv g.
  pose proof (run_lock sched
                (spawn (MkBlockstore (blocks bs) true (unlocks bs)
                          (delete_faults bs) false) live
                   (elements (dom (blocks bs))))) as Hl.
  fold g in Hl. unfold lock_after in Hl. simpl in Hl.
  specialize (Hl ltac:(done)).
  split; intros Hpc; destruct (at_pc g); done.
Qed.

Lemma GC_lock_held_until_return_witness :
  let pn := MkPinner [cid_of "A"] [] [] in
  let bs := idle store_ABCD in
  let g0 := spawn (MkBlockstore store_ABCD true 0 ∅ false) {[ "A"; "B" ]}
              (elements (dom store_ABCD)) in
  GC 5 bs pn [] = GCOutput g0 ∧
  (let g := run [Proceed] g0 in
   (at_pc g ≠ Exited →
    locked (store g) = true ∧ unlocks (store g) = unlocks bs ∧
    output_closed g = false) ∧
   (at_pc g = Exited →
    locked (store g) = false ∧ unlocks (store g) = S (unlocks bs) ∧
    output_closed g = true)) ∧
  (let g := run [Proceed; Cancel] g0 in
   (at_pc g ≠ Exited →
    locked (store g) = true ∧ unlocks (store g) = unlocks bs ∧
    output_closed g = false) ∧
   (at_pc g = Exited →
    locked (store g) = false ∧ unlocks (store g) = S (unlocks bs) ∧
    output_closed g = true)).
Proof.
  intros pn bs g0.
  assert (GC 5 bs pn [] = GCOutput g0) as H1 by (vm_compute; reflexivity).
  split; [exact H1|]. split.
  - exact (GC_lock_held_until_return 5 bs pn [] g0 [Proceed] H1).
  - exact (GC_lock_held_until_return 5 bs pn [] g0 [Proceed; Cancel] H1).
Defined.

(** ** The mark phase reads the blocks of live keys only *)

Lemma Get_agree (ds ds' : Blocks) c :
  ds' !! Hash c = ds !! Hash c → Get ds' c = Get ds c.
Proof. unfold Get. by intros ->. Qed.

Lemma walk_agree (ds ds' : Blocks) bestEffort (X : KeySet) fuel lnks set :
  (∀ k, k ∈ X → ds' !! k = ds !! k) →
  (walk ds bestEffort fuel lnks set).1 ⊆ X →
  walk ds' bestEffort fuel lnks set = walk ds bestEffort fuel lnks set.
Proof.
  intros Hag. revert fuel lnks set.
  apply (walk_ind ds bestEffort
           (λ fuel lnks set r,
              r.1 ⊆ X → walk ds' bestEffort fuel lnks set = r)); simpl.
  - done.
  - done.
  - intros fuel c rest set r Hc Hw IH HX. rewrite walk_seen by done. auto.
  - intros fuel c rest set e r Hc Hget Hbe Hw IH HX.
    pose proof (walk_subseteq ds bestEffort (S fuel) rest (Add (Hash c) set))
      as Hs. rewrite Hw in Hs.
    rewrite (walk_skip _ _ _ _ _ _ e); [by auto|done| |done].
    rewrite <-Hget. apply Get_agree, Hag, HX, Hs, elem_of_Add. by left.
  - intros fuel c rest set e Hc Hget Hbe HX.
    apply walk_abort; [done| |done].
    rewrite <-Hget. apply Get_agree, Hag, HX, elem_of_Add. by left.
  - intros fuel c rest set child set2 r Hc Hget Hw IH1 Hr IH2 HX.
    pose proof (walk_subseteq ds bestEffort fuel (Links child)
                  (Add (Hash c) set)) as Hs1. rewrite Hw in Hs1.
    pose proof (walk_subseteq ds bestEffort (S fuel) rest set2) as Hs2.
    rewrite Hr in Hs2. simpl in Hs1.
    rewrite (walk_descend _ _ _ _ _ _ child set2); [by auto|done| |].
    + rewrite <-Hget. apply Get_agree, Hag, HX, Hs2, Hs1, elem_of_Add.
      by left.
    + apply IH1. set_solver.
  - intros fuel c rest set child set2 o Hc Hget Ho Hw IH HX.
    pose proof (walk_subseteq ds bestEffort fuel (Links child)
                  (Add (Hash c) set)) as Hs1. rewrite Hw in Hs1.
    simpl in Hs1.
    apply (walk_fail _ _ _ _ _ _ child); [done| |done|by auto].
    rewrite <-Hget. apply Get_agree, Hag, HX, Hs1, elem_of_Add. by left.
Qed.

Lemma Descendants_agree (ds ds' : Blocks) bestEffort (X : KeySet) fuel set
    roots :
  (∀ k, k ∈ X → ds' !! k = ds !! k) →
  (Descendants fuel ds set roots bestEffort).1 ⊆ X →
  Descendants fuel ds' set roots bestEffort
  = Descendants fuel ds set roots bestEffort.
Proof.
  intros Hag. revert set.
  induction roots as [|c roots IH]; intros set; [done|].
  rewrite !Descendants_cons.
  destruct (Get ds c) as [e|nd] eqn:Hget.
  { simpl. intros HX. rewrite (Get_agree ds ds'), Hget; [done|].
    apply Hag, HX, elem_of_Add. by left. }
  pose proof (walk_subseteq ds bestEffort fuel (Links nd) (Add (Hash c) set))
    as Hs1.
  pose proof (walk_agree ds ds' bestEffort X fuel (Links nd)
                (Add (Hash c) set) Hag) as Hw.
  destruct (walk ds bestEffort fuel (Links nd) (Add (Hash c) set))
    as [set2 o] eqn:Hwalk. simpl in Hs1, Hw.
  assert ((match o with
           | Done => Descendants fuel ds set2 roots bestEffort
           | _ => (set2, o)
           end).1 ⊆ X → set2 ⊆ X) as Hset2.
  { destruct o; try done.
    pose proof (Descendants_subseteq ds bestEffort fuel set2 roots).
    set_solver. }
  intros HX.
  assert (set2 ⊆ X) as H2 by (apply Hset2; by destruct o).
  rewrite (Get_agree ds ds'), Hget, Hw by
    (done || apply Hag, H2, Hs1, elem_of_Add; by left).
  destruct o; [|done..]. by apply IH.
Qed.

Lemma ColoredSet_agree fuel pn (ds ds' : Blocks) bestEffortRoots gcs :
  ColoredSet fuel pn ds bestEffortRoots = Ok gcs →
  (∀ k, k ∈ gcs → ds' !! k = ds !! k) →
  ColoredSet fuel pn ds' bestEffortRoots = Ok gcs.
Proof.
  intros Hc Hag.
  destruct (ColoredSet_Ok_stages _ _ _ _ _ Hc) as (s1 & s2 & H1 & H2 & H4).
  pose proof (Descendants_Done_subseteq _ _ _ _ _ _ H2) as [Hs12 _].
  pose proof (Descendants_Done_subseteq _ _ _ _ _ _ H4) as [Hs34 _].
  unfold ColoredSet, ColoredSet_stages, NewKeySet.
  rewrite (Descendants_agree ds ds' false gcs), H1; [|done|].
  2:{ rewrite H1. simpl. set_solver. }
  rewrite (Descendants_agree ds ds' true gcs), H2; [|done|].
  2:{ rewrite H2. simpl. set_solver. }
  rewrite add_direct_union.
  rewrite (Descendants_agree ds ds' false gcs), H4; [done..|].
  by rewrite H4.
Qed.

(** X8: the mark phase reads the blocks of live keys only: if
    [ColoredSet] succeeds on a store, it returns the same live set on any
    store that holds the same blocks under the live keys, whatever else
    has been added, changed or removed. *)
Theorem ColoredSet_reads_live_blocks_only fuel pn (ds ds' : Blocks)
    bestEffortRoots gcs :
  ColoredSet fuel pn ds bestEffortRoots = Ok gcs →
  (∀ k, k ∈ gcs → ds' !! k = ds !! k) →
  ColoredSet fuel pn ds' bestEffortRoots = Ok gcs.
Proof. apply ColoredSet_agree. Qed.

Lemma ColoredSet_reads_live_blocks_only_witness :
  let pn := MkPinner [cid_of "A"] [] [] in
  let ds' : Blocks := <[ "E" := RawBlock ]> (delete "C" store_ABCD) in
  let gcs : KeySet := {[ "A"; "B" ]} in
  (ColoredSet 5 pn store_ABCD [] = Ok gcs ∧
   (∀ k, k ∈ gcs → ds' !! k = store_ABCD !! k)) ∧
  ColoredSet 5 pn ds' [] = Ok gcs.
Proof.
  intros pn ds' gcs.
  assert (ColoredSet 5 pn store_ABCD [] = Ok gcs) as H1
    by (vm_compute; reflexivity).
  assert (∀ k, k ∈ gcs → ds' !! k = store_ABCD !! k) as H2.
  { intros k Hk. assert (k = "A" ∨ k = "B") as [-> | ->] by set_solver;
      vm_compute; reflexivity. }
  split; [by split|].
  exact (ColoredSet_reads_live_blocks_only 5 pn store_ABCD ds' [] gcs H1 H2).
Defined.

(** ** Passes in sequence *)

(** A sweep whose enumeration holds live keys only deletes nothing and
    hands nothing over, under any schedule. *)
Lemma sweep_all_live sched : ∀ g,
  (∀ k, k ∈ keychan g → k ∈ gcs g) →
  at_pc g = AtSelect ∨ at_pc g = Exited →
  blocks (store (run sched g)) = blocks (store g) ∧
  output (run sched g) = output g.
Proof.
  induction sched as [|ch sched IH]; intros g Hall Hpc; [done|].
  destruct Hpc as [Hpc|Hpc]; [|by rewrite run_Exited].
  assert (blocks (store (run sched (exit g))) = blocks (store g) ∧
          output (run sched (exit g)) = output g) as Hexit
    by by rewrite run_Exited.
  simpl. unfold step. rewrite Hpc. destruct ch; [|done].
  destruct (keychan g) as [|k ks] eqn:Hks; [done|].
  unfold Has. rewrite bool_decide_eq_true_2
    by (apply Hall; rewrite ?Hks; apply list_elem_of_here).
  apply (IH (MkSweep _ _ _ _ _ _ _)); simpl; [|by left].
  intros k' Hk'. apply Hall. rewrite ?Hks. by apply list_elem_of_further.
Qed.

Lemma dead_empty ks : dead ∅ ks = ks.
Proof.
  unfold dead. induction ks as [|k ks IH]; [done|].
  rewrite filter_cons_True by set_solver. by rewrite IH.
Qed.

(** X9: a second pass after a completed one finds nothing to do.  If
    [GC] returns an output channel and its sweep runs to the end without
    cancellation or deletion error, then [GC] on the store it leaves,
    with the same pins and roots, returns an output channel again, over
    the same live set, and under any schedule that sweep deletes no block
    and hands over no key. *)
Theorem GC_second_pass_deletes_nothing fuel bs pn bestEffortRoots g0 sched :
  GC fuel bs pn bestEffortRoots = GCOutput g0 →
  Forall (eq Proceed) sched →
  at_pc (run sched g0) = Exited →
  logged (run sched g0) = [] →
  let bs1 := store (run sched g0) in
  ∃ g1,
    GC fuel bs1 pn bestEffortRoots = GCOutput g1 ∧
    gcs g1 = gcs g0 ∧
    ∀ sched', blocks (store (run sched' g1)) = blocks bs1 ∧
              output (run sched' g1) = [].
Proof.
  intros (_ & _ & live & Hc & ->)%GC_Output_inv Hsched Hex Hlog bs1.
  set (bsL := MkBlockstore (blocks bs) true (unlocks bs) (delete_faults bs)
                false) in *.
  set (ks := elements (dom (blocks bs))) in *.
  pose proof (run_lock sched (spawn bsL live ks) ltac:(done)) as Hl.
  unfold lock_after in Hl. rewrite Hex in Hl. destruct Hl as (Hl & _).
  destruct (store_inv_run bsL sched _ (store_inv_spawn bsL live ks))
    as (_ & Hlive & _ & _ & Hef).
  rewrite run_gcs in Hlive. simpl in Hlive, Hef.
  destruct (sweep_completed ks sched (spawn bsL live ks))
    as (_ & _ & Hb); try done. simpl in Hb.
  fold bs1 in Hl, Hlive, Hef, Hb.
  assert (ColoredSet fuel pn (blocks bs1) bestEffortRoots = Ok live) as Hc1.
  { by apply (ColoredSet_agree _ _ (blocks bs)). }
  eexists. split_and!.
  - unfold GC, GCLock, AllKeysChan. rewrite Hl. cbn [blocks enum_fault].
    rewrite Hc1, Hef. reflexivity.
  - done.
  - intros sched'.
    match goal with
    | |- context [run sched' ?g] =>
        destruct (sweep_all_live sched' g) as [Hx Hy];
          [simpl|by left|by split]
    end.
    intros k Hk%elem_of_elements%elem_of_dom.
    rewrite Hb, lookup_foldl_delete in Hk. case_decide as Hd; [by destruct Hk|].
    destruct (decide (k ∈ live)) as [|Hn]; [done|]. exfalso. apply Hd.
    apply elem_of_dead. split; [|done].
    apply elem_of_elements, elem_of_dom. done.
Qed.

Lemma GC_second_pass_deletes_nothing_witness :
  let pn := MkPinner [cid_of "A"] [] [] in
  let bs := idle store_ABCD in
  let g0 := spawn (MkBlockstore store_ABCD true 0 ∅ false) {[ "A"; "B" ]}
              (elements (dom store_ABCD)) in
  let sched := patient {[ "A"; "B" ]} (elements (dom store_ABCD)) in
  (GC 5 bs pn [] = GCOutput g0 ∧ Forall (eq Proceed) sched ∧
   at_pc (run sched g0) = Exited ∧ logged (run sched g0) = []) ∧
  let bs1 := store (run sched g0) in
  ∃ g1,
    GC 5 bs1 pn [] = GCOutput g1 ∧
    gcs g1 = gcs g0 ∧
    ∀ sched', blocks (store (run sched' g1)) = blocks bs1 ∧
              output (run sched' g1) = [].
Proof.
  intros pn bs g0 sched.
  assert (GC 5 bs pn [] = GCOutput g0) as H1 by (vm_compute; reflexivity).
  assert (Forall (eq Proceed) sched) as H2
    by (vm_compute; repeat constructor).
  assert (at_pc (run sched g0) = Exited) as H3 by (vm_compute; reflexivity).
  assert (logged (run sched g0) = []) as H4 by (vm_compute; reflexivity).
  split; [done|].
  exact (GC_second_pass_deletes_nothing 5 bs pn [] g0 sched H1 H2 H3 H4).
Defined.

(** X10: with nothing pinned and no best-effort roots the live set is
    empty, whatever the fuel: [GC] on a free store whose enumeration
    starts returns an output channel, and a sweep that runs to the end
    without cancellation or deletion error hands over every stored key
    and leaves the store empty. *)
Theorem GC_without_pins_empties_store fuel bs :
  locked bs = false → enum_fault bs = false →
  ∃ g0,
    GC fuel bs (MkPinner [] [] []) [] = GCOutput g0 ∧
    gcs g0 = ∅ ∧
    ∀ sched,
      Forall (eq Proceed) sched → at_pc (run sched g0) = Exited →
      logged (run sched g0) = [] →
      output (run sched g0) = elements (dom (blocks bs)) ∧
      blocks (store (run sched g0)) = ∅.
Proof.
  intros Hl He.
  exists (spawn (MkBlockstore (blocks bs) true (unlocks bs) (delete_faults bs)
                   false) ∅ (elements (dom (blocks bs)))).
  split_and!.
  - unfold GC, GCLock, AllKeysChan. rewrite Hl. cbn [blocks enum_fault].
    rewrite He. reflexivity.
  - done.
  - intros sched Hsched Hex Hlog.
    destruct (sweep_completed (elements (dom (blocks bs))) sched
                (spawn (MkBlockstore (blocks bs) true (unlocks bs)
                          (delete_faults bs) false) ∅
                   (elements (dom (blocks bs)))))
      as (Ho & _ & Hb); try done.
    simpl in Ho, Hb.
    rewrite dead_empty in Ho, Hb. split; [done|].
    apply map_eq. intros k. rewrite Hb, lookup_foldl_delete, lookup_empty.
    case_decide as Hk; [done|].
    apply not_elem_of_dom. by rewrite <-elem_of_elements.
Qed.

Lemma GC_without_pins_empties_store_witness :
  let bs := idle store_ABCD in
  (locked bs = false ∧ enum_fault bs = false) ∧
  ∃ g0,
    GC 0 bs (MkPinner [] [] []) [] = GCOutput g0 ∧
    gcs g0 = ∅ ∧
    ∀ sched,
      Forall (eq Proceed) sched → at_pc (run sched g0) = Exited →
      logged (run sched g0) = [] →
      output (run sched g0) = elements (dom (blocks bs)) ∧
      blocks (store (run sched g0)) = ∅.
Proof.
  intros bs. split; [by split|].
  exact (GC_without_pins_empties_store 0 bs eq_refl eq_refl).
Defined.

(** ** Order of the roots, fuel *)

(** X11: on a closed set (the empty set, or the result of earlier
    successful calls on it) the set a successful [Descendants] returns
    depends only on which roots it is given: not on their order or
    repetition, nor on the flag or the fuel. *)
Theorem Descendants_roots_order ds set roots1 roots2 fuel1 fuel2 be1 be2
    set1 set2 :
  closed ds set →
  (∀ c, c ∈ roots1 ↔ c ∈ roots2) →
  Descendants fuel1 ds set roots1 be1 = (set1, Done) →
  Descendants fuel2 ds set roots2 be2 = (set2, Done) →
  set1 = set2.
Proof.
  intros Hcl Hr H1 H2. apply set_eq. intros k.
  rewrite (Descendants_closed_Done _ _ _ _ _ _ Hcl H1).
  rewrite (Descendants_closed_Done _ _ _ _ _ _ Hcl H2).
  unfold reachable.
  split; (intros [?|Hk]; [by left|right]);
    (eapply reach_mono; [done| |exact Hk]); intros c; apply Hr.
Qed.

Lemma Descendants_roots_order_witness :
  let set1 : KeySet := {[ "A"; "B"; "C" ]} in
  (closed store_ABCD ∅ ∧
   (∀ c, c ∈ [cid_of "C"; cid_of "A"; cid_of "C"]
         ↔ c ∈ [cid_of "A"; cid_of "C"]) ∧
   Descendants 5 store_ABCD ∅ [cid_of "C"; cid_of "A"; cid_of "C"] false
   = (set1, Done) ∧
   Descendants 7 store_ABCD ∅ [cid_of "A"; cid_of "C"] true = (set1, Done)) ∧
  set1 = set1.
Proof.
  intros set1.
  assert (∀ c, c ∈ [cid_of "C"; cid_of "A"; cid_of "C"]
               ↔ c ∈ [cid_of "A"; cid_of "C"]) as H2 by set_solver.
  assert (Descendants 5 store_ABCD ∅ [cid_of "C"; cid_of "A"; cid_of "C"]
            false = (set1, Done)) as H3 by (vm_compute; reflexivity).
  assert (Descendants 7 store_ABCD ∅ [cid_of "A"; cid_of "C"] true
          = (set1, Done)) as H4 by (vm_compute; reflexivity).
  split; [split_and!; [apply closed_empty|done..]|].
  exact (Descendants_roots_order store_ABCD ∅ _ _ 5 7 false true set1 set1
           (closed_empty _) H2 H3 H4).
Defined.

(** X12: with more fuel than there are stored blocks [GC] comes to an
    end, mark phase included, and further fuel does not change what it
    returns. *)
Theorem GC_terminates fuel bs pn bestEffortRoots :
  size (blocks bs) < fuel →
  GC fuel bs pn bestEffortRoots ≠ GCStuck ∧
  ∀ fuel', fuel ≤ fuel' →
    GC fuel' bs pn bestEffortRoots = GC fuel bs pn bestEffortRoots.
Proof.
  intros Hf. split; [by apply GC_fuel|].
  intros fuel' Hle. unfold GC. destruct (GCLock bs) as [bs'|] eqn:Hl; [|done].
  assert (blocks bs' = blocks bs) as Hb.
  { unfold GCLock in Hl. destruct (locked bs); [done|]. by injection Hl as <-. }
  cbn zeta. rewrite Hb. by rewrite (ColoredSet_fuel_mono fuel fuel').
Qed.

Lemma GC_terminates_witness :
  let bs := idle store_ABCD in
  let pn := MkPinner [cid_of "A"] [cid_of "C"] [] in
  size (blocks bs) < 5 ∧
  GC 5 bs pn [] ≠ GCStuck ∧
  ∀ fuel', 5 ≤ fuel' → GC fuel' bs pn [] = GC 5 bs pn [].
Proof.
  intros bs pn.
  assert (size (blocks bs) < 5) as Hyp by (vm_compute; lia).
  split; [exact Hyp|]. exact (GC_terminates 5 bs pn [] Hyp).
Defined.

(** ** What success and failure of the mark phase say about the store *)

Lemma Get_inr ds c nd : Get ds c = inr nd → ds !! Hash c = Some (NodeBlock nd).
Proof.
  unfold Get. destruct (ds !! Hash c) as [[nd'|]|]; congruence.
Qed.

(** A strict walk that succeeds has fetched every key it has marked. *)
Lemma walk_strict_stored ds fuel lnks set set' k :
  walk ds false fuel lnks set = (set', Done) →
  k ∈ set' → k ∉ set → ∃ nd, ds !! k = Some (NodeBlock nd).
Proof.
  revert fuel lnks set set' k.
  cut (∀ fuel lnks set,
         (λ _ _ set r, r.2 = Done → ∀ k, k ∈ r.1 → k ∉ set →
                       ∃ nd, ds !! k = Some (NodeBlock nd))
           fuel lnks set (walk ds false fuel lnks set)).
  { intros H fuel lnks set set' k Hw. specialize (H fuel lnks set).
    rewrite Hw in H. by apply H. }
  apply (walk_ind ds false); simpl; try done.
  intros fuel c rest set child set2 r Hc Hget Hw IH1 Hr IH2 Hd k Hk Hn.
  destruct (decide (k ∈ set2)) as [Hk2|Hk2]; [|by apply IH2].
  destruct (decide (k = Hash c)) as [->|Hne].
  - exists child. by apply Get_inr.
  - apply IH1; [done..|]. rewrite elem_of_Add. naive_solver.
Qed.

(** A successful [Descendants] has fetched every root, with or without
    [bestEffort]; a strict one has fetched every key it has marked. *)
Lemma Descendants_Done_roots_stored fuel ds set roots bestEffort set' c :
  Descendants fuel ds set roots bestEffort = (set', Done) →
  c ∈ roots → ∃ nd, ds !! Hash c = Some (NodeBlock nd).
Proof.
  revert set. induction roots as [|c0 roots IH]; intros set Hd Hc;
    [by apply elem_of_nil in Hc|].
  rewrite Descendants_cons in Hd.
  destruct (Get ds c0) as [e|nd] eqn:Hget; [done|].
  destruct (walk ds bestEffort fuel (Links nd) (Add (Hash c0) set))
    as [set2 [| |]]; [|done..].
  apply elem_of_cons in Hc as [->|Hc]; [|by eapply IH].
  exists nd. by apply Get_inr.
Qed.

Lemma Descendants_strict_stored fuel ds set roots set' k :
  Descendants fuel ds set roots false = (set', Done) →
  k ∈ set' → k ∉ set → ∃ nd, ds !! k = Some (NodeBlock nd).
Proof.
  revert set. induction roots as [|c roots IH]; intros set.
  { by intros [= <-] ??. }
  rewrite Descendants_cons.
  destruct (Get ds c) as [e|nd] eqn:Hget; [done|].
  destruct (walk ds false fuel (Links nd) (Add (Hash c) set))
    as [set2 [| |]] eqn:Hw; [|done..].
  intros Hd Hk Hn.
  destruct (decide (k ∈ set2)) as [Hk2|Hk2]; [|by eapply IH].
  destruct (decide (k = Hash c)) as [->|Hne].
  - exists nd. by apply Get_inr.
  - eapply walk_strict_stored; [exact Hw|done|].
    rewrite elem_of_Add. naive_solver.
Qed.

(** X13: [ColoredSet] succeeds only on a store where every key reachable
    from a recursive root is stored as a node, and so is every best-effort
    root and every internal root: a recursive pin with a missing or
    undecodable block anywhere below it, or a missing root of any walked
    category, makes the mark phase fail. *)
Theorem ColoredSet_Ok_pins_stored fuel pn ds bestEffortRoots gcs :
  ColoredSet fuel pn ds bestEffortRoots = Ok gcs →
  (∀ k, reachable ds (RecursiveKeys pn) k →
        ∃ nd, ds !! k = Some (NodeBlock nd)) ∧
  (∀ c, c ∈ bestEffortRoots ++ InternalPins pn →
        ∃ nd, ds !! Hash c = Some (NodeBlock nd)).
Proof.
  intros (s1 & s2 & H1 & H2 & H4)%ColoredSet_Ok_stages. split.
  - intros k Hk. eapply Descendants_strict_stored; [exact H1| |set_solver].
    apply (Descendants_closed_Done _ _ _ _ _ _ (closed_empty ds) H1).
    by right.
  - intros c [Hc|Hc]%elem_of_app.
    + exact (Descendants_Done_roots_stored _ _ _ _ _ _ _ H2 Hc).
    + exact (Descendants_Done_roots_stored _ _ _ _ _ _ _ H4 Hc).
Qed.

Lemma ColoredSet_Ok_pins_stored_witness :
  let pn := MkPinner [cid_of "A"] [cid_of "D"] [cid_of "C"] in
  ColoredSet 5 pn store_ABCD [cid_of "C"] = Ok {[ "A"; "B"; "C"; "D" ]} ∧
  (∀ k, reachable store_ABCD (RecursiveKeys pn) k →
        ∃ nd, store_ABCD !! k = Some (NodeBlock nd)) ∧
  (∀ c, c ∈ [cid_of "C"] ++ InternalPins pn →
        ∃ nd, store_ABCD !! Hash c = Some (NodeBlock nd)).
Proof.
  intros pn.
  assert (ColoredSet 5 pn store_ABCD [cid_of "C"]
          = Ok {[ "A"; "B"; "C"; "D" ]}) as Hyp by (vm_compute; reflexivity).
  split; [exact Hyp|].
  exact (ColoredSet_Ok_pins_stored 5 pn store_ABCD [cid_of "C"] _ Hyp).
Defined.

(** A walk with [bestEffort] does not fail. *)
Lemma walk_bestEffort_not_Failed ds fuel lnks set err :
  (walk ds true fuel lnks set).2 ≠ Failed err.
Proof.
  revert fuel lnks set.
  apply (walk_ind ds true (λ _ _ _ r, r.2 ≠ Failed err)); simpl; try done.
Qed.

(** X14: with [bestEffort] the only error [Descendants] returns is the
    fetch error of one of its roots, whose key is then in the set; given
    fuel above the number of stored blocks it succeeds whenever every
    root is stored as a node, whatever is missing or undecodable below
    the roots. *)
Theorem Descendants_bestEffort_fails_only_at_roots fuel ds set roots :
  (∀ set' err,
     Descendants fuel ds set roots true = (set', Failed err) →
     ∃ c, c ∈ roots ∧ Get ds c = inl err ∧ Hash c ∈ set') ∧
  (size ds < fuel →
   (∀ c, c ∈ roots → ∃ nd, ds !! Hash c = Some (NodeBlock nd)) →
   (Descendants fuel ds set roots true).2 = Done).
Proof.
  assert (∀ set set' err,
            Descendants fuel ds set roots true = (set', Failed err) →
            ∃ c, c ∈ roots ∧ Get ds c = inl err ∧ Hash c ∈ set') as Hfail.
  { clear set. induction roots as [|c roots IH]; intros set set' err; [done|].
    rewrite Descendants_cons. destruct (Get ds c) as [e|nd] eqn:Hget.
    { intros [= <- <-]. exists c. split_and!; [apply list_elem_of_here|done|].
      apply elem_of_Add. by left. }
    pose proof (walk_bestEffort_not_Failed ds fuel (Links nd)
                  (Add (Hash c) set)) as Hw.
    destruct (walk ds true fuel (Links nd) (Add (Hash c) set))
      as [set2 [|e|]]; [|intros [= <- <-]; by destruct (Hw e)|done].
    intros (c' & Hc' & ?)%IH. exists c'. split; [|done].
    by apply list_elem_of_further. }
  split; [by apply Hfail|].
  intros Hf Hroots.
  pose proof (Descendants_fuel ds true fuel set roots Hf) as Hne.
  destruct (Descendants fuel ds set roots true) as [set' [|err|]] eqn:Hd;
    [done| |done].
  apply Hfail in Hd as (c & Hc & Hget & _).
  destruct (Hroots c Hc) as [nd Hnd]. unfold Get in Hget.
  by rewrite Hnd in Hget.
Qed.

Lemma Descendants_bestEffort_fails_only_at_roots_witness :
  let ds : Blocks := <[ "P" := node_of ["X"; "D"; "C"] ]> store_ABCD in
  let roots := [cid_of "P"] in
  (size ds < 6 ∧
   (∀ c, c ∈ roots → ∃ nd, ds !! Hash c = Some (NodeBlock nd)) ∧
   Descendants 6 ds ∅ roots true = ({[ "P"; "X"; "D"; "C" ]}, Done)) ∧
  (∀ set' err,
     Descendants 6 ds ∅ roots true = (set', Failed err) →
     ∃ c, c ∈ roots ∧ Get ds c = inl err ∧ Hash c ∈ set') ∧
  (size ds < 6 →
   (∀ c, c ∈ roots → ∃ nd, ds !! Hash c = Some (NodeBlock nd)) →
   (Descendants 6 ds ∅ roots true).2 = Done).
Proof.
  intros ds roots. split.
  - split_and!; [vm_compute; lia| |vm_compute; reflexivity].
    intros c ->%list_elem_of_singleton.
    exists (MkNode [cid_of "X"; cid_of "D"; cid_of "C"]).
    vm_compute. reflexivity.
  - exact (Descendants_bestEffort_fails_only_at_roots 6 ds ∅ roots).
Defined.

(** ** The errors a sweep can meet *)

Lemma DeleteBlock_err_stored bs k bs' err :
  DeleteBlock bs k = (bs', Some err) → k ∈ dom (blocks bs) →
  err = ErrDelete k ∧ k ∈ delete_faults bs.
Proof.
  unfold DeleteBlock. intros Hd [b Hb]%elem_of_dom. rewrite Hb in Hd.
  case_bool_decide; [|done]. by injection Hd as <- <-.
Qed.

Lemma log_inv_step bs0 g ch :
  pending_inv g → store_inv bs0 g → log_inv bs0 g → log_inv bs0 (step ch g).
Proof.
  intros [_ Hst] (Hsub & _ & _ & Hdf & _) (Hq & Hlen & Hall).
  unfold step. destruct (at_pc g) eqn:Hpc;
    [| |by unfold log_inv; rewrite Hpc];
    specialize (Hq ltac:(done)).
  - assert (log_inv bs0 (exit g)) as Hexit.
    { unfold log_inv, logged in *. simpl. rewrite errors_of_app, Hq. simpl.
      split_and!; [done|lia|constructor]. }
    destruct ch; [|done]. destruct (keychan g) as [|k ks] eqn:Hks; [done|].
    unfold Has. case_bool_decide as Hk.
    { unfold log_inv, logged in *. simpl. rewrite Hq.
      split_and!; [done|simpl; lia|constructor]. }
    destruct (DeleteBlock (store g) k) as [bs [err|]] eqn:Hd.
    + assert (k ∈ dom (blocks (store g))) as Hin
        by (apply Hst; rewrite ?Hks; apply list_elem_of_here).
      destruct (DeleteBlock_err_stored _ _ _ _ Hd Hin) as [-> Hf].
      unfold log_inv, logged in *. simpl. rewrite !errors_of_app, Hq. simpl.
      split_and!; [done|lia|]. apply Forall_singleton. exists k.
      split_and!; [done|by rewrite <-Hdf|done|by eapply subseteq_dom].
    + unfold log_inv, logged in *. simpl. rewrite errors_of_app, Hq. simpl.
      split_and!; [done|lia|constructor].
  - assert (log_inv bs0 (exit g)) as Hexit.
    { unfold log_inv, logged in *. simpl. rewrite errors_of_app, Hq. simpl.
      split_and!; [done|lia|constructor]. }
    destruct ch; [|done].
    unfold log_inv, logged in *. simpl. rewrite errors_of_app, Hq. simpl.
    split_and!; [done|lia|constructor].
Qed.

Lemma log_inv_run bs0 sched g :
  pending_inv g → store_inv bs0 g → log_inv bs0 g →
  log_inv bs0 (run sched g).
Proof.
  revert g. induction sched as [|ch sched IH]; intros g Hp Hs Hl; [done|].
  simpl. apply IH.
  - by apply pending_inv_step.
  - by apply store_inv_step.
  - by apply log_inv_step.
Qed.

(** X15: a sweep over the keys the store enumerates logs at most one
    error, under any schedule, and only when it returns: the I/O failure
    of deleting a stored key that is not live.  A deletion never fails
    because the block is absent. *)
Theorem sweep_logs_only_delete_faults bs live sched :
  let g := run sched (spawn bs live (elements (dom (blocks bs)))) in
  (at_pc g ≠ Exited → logged g = []) ∧
  length (logged g) ≤ 1 ∧
  Forall (λ err, ∃ k, err = ErrDelete k ∧ k ∈ delete_faults bs ∧
                      (k ∉ live) ∧ k ∈ dom (blocks bs)) (logged g).
Proof.
  intros g.
  assert (log_inv bs g) as (Hq & Hlen & Hall).
  { apply log_inv_run.
    - split; simpl; [apply NoDup_elements|].
      intros k. by rewrite elem_of_elements.
    - apply store_inv_spawn.
    - unfold log_inv, logged. simpl. split_and!; [done|lia|constructor]. }
  unfold g in Hall at 1. by rewrite run_gcs in Hall.
Qed.
